(** * Composite pattern: view hierarchy and priced collections

    A shallow embedding of the two JavaScript programs of the repository.

    - [View] embeds the view hierarchy ([ViewComponent], [ViewComposite],
      [DecoratorComposite], [PrintLeaf]): objects live in a store and are
      named by references, methods are found along the prototype chain,
      [console.log] appends a line to the console, and a [throw] is a
      completion that skips the rest of the caller.
    - [Simple] embeds [2-simple.js] ([Product], [Collection] and the [price]
      getter), again over a store of objects, because a [Set] of objects
      compares its members by reference. *)

From stdpp Require Import base list strings.
From Stdlib Require Import ZArith Lia.
From Corelib Require PrimFloat.

Open Scope string_scope.
Open Scope list_scope.
Open Scope nat_scope.

(** A reference to an object: its position in the store. *)
Abbreviation loc := nat (only parsing).

(* ===================================================================== *)
(** * The view hierarchy *)
(* ===================================================================== *)

Module View.

(** ** Classes, methods and the prototype chain *)

Inductive class :=
| CViewComponent
| CViewComposite
| CDecoratorComposite
| CPrintLeaf.

(** [class C extends P]. *)
Definition extends (c : class) : option class :=
  match c with
  | CViewComponent => None
  | CViewComposite => Some CViewComponent
  | CDecoratorComposite => Some CViewComposite
  | CPrintLeaf => Some CViewComponent
  end.

(** A method call with its arguments: [x.draw()], [x.add(child)],
    [x.remove(child)], [x[Symbol.iterator]()]. *)
Inductive call :=
| draw
| add (child : loc)
| remove (child : loc)
| Symbol_iterator.

(** The methods a class body declares itself. *)
Definition declares (c : class) (m : call) : bool :=
  match c, m with
  | CViewComponent, draw => true
  | CViewComposite, (draw | add _ | remove _ | Symbol_iterator) => true
  | CDecoratorComposite, draw => true
  | CPrintLeaf, draw => true
  | _, _ => false
  end.

(** The prototype chain of a class, nearest first. No chain of the program
    is longer than three classes. *)
Fixpoint chain_from (depth : nat) (c : class) : list class :=
  match depth with
  | 0 => []
  | S depth =>
      c :: match extends c with
           | Some p => chain_from depth p
           | None => []
           end
  end.

Definition chain (c : class) : list class := chain_from 3 c.

(** Property lookup: the first class of the chain that declares the method. *)
Definition resolve (c : class) (m : call) : option class :=
  List.find (fun k => declares k m) (chain c).

(** ** Objects, store and console *)

(** An instance, with the fields its constructors give it: [#children] for
    the two composites (initialised to [[]]), [text] for a leaf. *)
Inductive obj :=
| ViewComponent
| ViewComposite (children : list loc)
| DecoratorComposite (children : list loc)
| PrintLeaf (text : string).

Definition class_of (o : obj) : class :=
  match o with
  | ViewComponent => CViewComponent
  | ViewComposite _ => CViewComposite
  | DecoratorComposite _ => CDecoratorComposite
  | PrintLeaf _ => CPrintLeaf
  end.

(** The private field [#children], present on instances of [ViewComposite]
    and of its subclass. *)
Definition children_of (o : obj) : option (list loc) :=
  match o with
  | ViewComposite ks | DecoratorComposite ks => Some ks
  | _ => None
  end.

Definition with_children (o : obj) (ks : list loc) : obj :=
  match o with
  | ViewComposite _ => ViewComposite ks
  | DecoratorComposite _ => DecoratorComposite ks
  | _ => o
  end.

Record state := mkState {
  heap : list obj;          (* the objects, by reference *)
  console : list string     (* the lines printed so far, oldest first *)
}.

Inductive error :=
| Error (message : string)
| TypeError (message : string).

(** The iterator of an array: the object whose [#children] it walks (none
    once it is exhausted) and the next index. It reads the array when it is
    stepped, not when it is created. *)
Record ArrayIterator := mkIter {
  iterated : option loc;
  nextIndex : nat
}.

Inductive value :=
| undefined
| VIterator (it : ArrayIterator).

Inductive completion :=
| Return (v : value)
| Throw (e : error).

(** A computation: [None] when the recursion budget is used up, otherwise a
    completion and the state it leaves. *)
Definition M := state -> option (completion * state).

Definition ret (v : value) : M := fun s => Some (Return v, s).
Definition throw (e : error) : M := fun s => Some (Throw e, s).

(** Statement sequencing: a [throw] in [m] skips [k]. *)
Definition seq (m : M) (k : M) : M :=
  fun s =>
    match m s with
    | Some (Return _, s') => k s'
    | Some (Throw e, s') => Some (Throw e, s')
    | None => None
    end.

Notation "m ;;; k" := (seq m k) (at level 90, right associativity).

Definition console_log (line : string) : M :=
  fun s => Some (Return undefined,
                 {| heap := heap s; console := console s ++ [line] |}).

(** [const x = new C(...); rest]: the object gets the next free reference. *)
Definition new (o : obj) (rest : loc -> M) : M :=
  fun s => rest (length (heap s))
                {| heap := heap s ++ [o]; console := console s |}.

(** [array.forEach(f)]: [f] on each element, first to last; a [throw] ends
    the loop. The callbacks of this program never write to the array they
    are run over, so the loop is over the elements the array holds when it
    starts. *)
Fixpoint forEach (f : loc -> M) (ks : list loc) : M :=
  match ks with
  | [] => ret undefined
  | k :: ks => f k ;;; forEach f ks
  end.

(** ** Method bodies

    [child_draw] is the dynamically dispatched [child.draw()]. *)

Section Methods.
Variable child_draw : loc -> M.

(** [draw() { throw new Error('Not implemented'); }] *)
Definition ViewComponent_draw (this : loc) : M :=
  throw (Error "Not implemented").

(** [add(child) { this.#children.push(child); }] *)
Definition ViewComposite_add (this child : loc) : M :=
  fun s =>
    match heap s !! this with
    | Some o =>
        match children_of o with
        | Some ks =>
            Some (Return undefined,
                  {| heap := <[this := with_children o (ks ++ [child])]> (heap s);
                     console := console s |})
        | None =>
            throw (TypeError "Cannot read private member #children") s
        end
    | None => throw (TypeError "Cannot read private member #children") s
    end.

(** [remove(child) { this.#children.remove(child); }]
    An array has no [remove] method: [this.#children.remove] is
    [undefined], and calling it throws. *)
Definition ViewComposite_remove (this child : loc) : M :=
  fun s =>
    match heap s !! this ≫= children_of with
    | Some _ => throw (TypeError "this.#children.remove is not a function") s
    | None => throw (TypeError "Cannot read private member #children") s
    end.

(** [draw() { this.#children.forEach(child => child.draw()); }] *)
Definition ViewComposite_draw (this : loc) : M :=
  fun s =>
    match heap s !! this ≫= children_of with
    | Some ks => forEach child_draw ks s
    | None => throw (TypeError "Cannot read private member #children") s
    end.

(** [[Symbol.iterator]() { return this.#children[Symbol.iterator](); }] *)
Definition ViewComposite_iterator (this : loc) : M :=
  fun s =>
    match heap s !! this ≫= children_of with
    | Some _ => ret (VIterator {| iterated := Some this; nextIndex := 0 |}) s
    | None => throw (TypeError "Cannot read private member #children") s
    end.

(** [draw() { console.log('NestedStart'); super.draw();
              console.log('NestedEnd'); }] *)
Definition DecoratorComposite_draw (this : loc) : M :=
  console_log "NestedStart" ;;;
  ViewComposite_draw this ;;;
  console_log "NestedEnd".

(** [draw() { console.log(this.text); }] *)
Definition PrintLeaf_draw (this : loc) : M :=
  fun s =>
    match heap s !! this with
    | Some (PrintLeaf text) => console_log text s
    | _ => console_log "undefined" s
    end.

(** The body that class [c] declares for the call [m]. *)
Definition body (c : class) (m : call) (this : loc) : M :=
  match c, m with
  | CViewComponent, draw => ViewComponent_draw this
  | CViewComposite, draw => ViewComposite_draw this
  | CViewComposite, add child => ViewComposite_add this child
  | CViewComposite, remove child => ViewComposite_remove this child
  | CViewComposite, Symbol_iterator => ViewComposite_iterator this
  | CDecoratorComposite, draw => DecoratorComposite_draw this
  | CPrintLeaf, draw => PrintLeaf_draw this
  | _, _ => throw (TypeError "is not a function")
  end.
End Methods.

(** ** Method invocation

    [invoke fuel this m] is [this.m(...)]: the method is looked up along the
    prototype chain of the receiver's class; a method that no class of the
    chain declares is [undefined], and calling it throws a [TypeError]. A
    reference outside the store stands for a value that is no view object.
    [fuel] bounds the depth of nested [draw] calls. *)
Fixpoint invoke (fuel : nat) (this : loc) (m : call) : M :=
  match fuel with
  | 0 => fun _ => None
  | S fuel =>
      fun s =>
        match heap s !! this with
        | Some o =>
            match resolve (class_of o) m with
            | Some c => body (fun child => invoke fuel child draw) c m this s
            | None => throw (TypeError "is not a function") s
            end
        | None => throw (TypeError "is not a function") s
        end
  end.

(** ** Iteration *)

(** [it.next()]: [Some k] is [{ value: k, done: false }], [None] is
    [{ value: undefined, done: true }]. The array is read at each step; past
    its end the iterator lets go of the array and stays exhausted. *)
Definition next (it : ArrayIterator) (s : state) : option loc * ArrayIterator :=
  match iterated it with
  | None => (None, it)
  | Some a =>
      match (heap s !! a ≫= children_of) ≫= (fun ks => ks !! nextIndex it) with
      | Some k => (Some k, {| iterated := Some a; nextIndex := S (nextIndex it) |})
      | None => (None, {| iterated := None; nextIndex := nextIndex it |})
      end
  end.

(** Stepping an iterator until it is done, collecting what it yields.
    [steps] bounds the number of calls of [next]. *)
Fixpoint drain (steps : nat) (it : ArrayIterator) (s : state) : option (list loc) :=
  match steps with
  | 0 => None
  | S steps =>
      match next it s with
      | (Some k, it') => cons k <$> drain steps it' s
      | (None, _) => Some []
      end
  end.

(** [[...x]]: the sequence that iterating [x] yields, or the error thrown. *)
Definition spread (fuel : nat) (x : loc) (s : state)
  : option ((list loc + error) * state) :=
  match invoke fuel x Symbol_iterator s with
  | Some (Return (VIterator it), s') =>
      (fun ks => (inl ks, s')) <$> drain fuel it s'
  | Some (Return undefined, s') =>
      Some (inr (TypeError "Result of the Symbol.iterator method is not an object"), s')
  | Some (Throw e, s') => Some (inr e, s')
  | None => None
  end.

(** [for (const child of x) block(child)], from the iterator on. *)
Fixpoint for_of_loop (steps : nat) (it : ArrayIterator) (block : loc -> M) : M :=
  match steps with
  | 0 => fun _ => None
  | S steps =>
      fun s =>
        match next it s with
        | (Some k, it') => (block k ;;; for_of_loop steps it' block) s
        | (None, _) => ret undefined s
        end
  end.

Definition for_of (fuel : nat) (x : loc) (block : loc -> M) : M :=
  fun s =>
    match invoke fuel x Symbol_iterator s with
    | Some (Return (VIterator it), s') => for_of_loop fuel it block s'
    | Some (Return undefined, s') =>
        throw (TypeError "Result of the Symbol.iterator method is not an object") s'
    | other => other
    end.

(** ** The usage script: construction of the hierarchy

    References in allocation order. *)
Definition hello : loc := 0.
Definition world : loc := 1.
Definition js : loc := 2.
Definition helloView : loc := 3.
Definition jsView : loc := 4.
Definition nestedView : loc := 5.

Definition usage_setup : M :=
  new (PrintLeaf "hello") (fun hello =>
  new (PrintLeaf "world") (fun world =>
  new (PrintLeaf "js") (fun js =>
  new (ViewComposite []) (fun helloView =>
  invoke 1 helloView (add hello) ;;;
  invoke 1 helloView (add world) ;;;
  new (ViewComposite []) (fun jsView =>
  invoke 1 jsView (add world) ;;;
  invoke 1 jsView (add js) ;;;
  new (DecoratorComposite []) (fun nestedView =>
  invoke 1 nestedView (add helloView) ;;;
  invoke 1 nestedView (add jsView))))))).

(** The store the script has built when it starts drawing. *)
Definition usage_heap : list obj :=
  [ PrintLeaf "hello"; PrintLeaf "world"; PrintLeaf "js";
    ViewComposite [hello; world]; ViewComposite [world; js];
    DecoratorComposite [helloView; jsView] ].

(** ** Hierarchies without cycles

    [rank] decreases from every composite to each of its children, and every
    child is an object of the store. *)
Definition ranked (rank : loc -> nat) (h : list obj) : bool :=
  forallb
    (fun '(l, o) =>
       match children_of o with
       | Some ks =>
           forallb (fun k => (rank k <? rank l)%nat && (k <? length h)%nat) ks
       | None => true
       end)
    (imap pair h).

(** No object of the store is an instance of the bare base class. *)
Definition concrete (h : list obj) : bool :=
  forallb (fun o => match o with ViewComponent => false | _ => true end) h.

(** [draws h l o]: in store [h], [l.draw()] returns (with [undefined]),
    prints exactly the lines [o] and leaves the store as it was. *)
Definition draws (h : list obj) (l : loc) (o : list string) : Prop :=
  exists n, forall out,
    invoke n l draw (mkState h out) = Some (Return undefined, mkState h (out ++ o)).

(** [throws h l e o]: in store [h], [l.draw()] throws [e] after printing
    exactly the lines [o], and leaves the store as it was. *)
Definition throws (h : list obj) (l : loc) (e : error) (o : list string) : Prop :=
  exists n, forall out,
    invoke n l draw (mkState h out) = Some (Throw e, mkState h (out ++ o)).

(** [appends_only h f]: run in store [h], the computation [f] leaves the
    store, adds lines at the end of the console, and both these lines and
    the completion are the same whatever the console held before. *)
Definition appends_only (h : list obj) (f : M) : Prop :=
  forall out r s', f (mkState h out) = Some (r, s') ->
    exists o, s' = mkState h (out ++ o) /\
              forall out', f (mkState h out') = Some (r, mkState h (out' ++ o)).

End View.

(* ===================================================================== *)
(** * Products and collections ([2-simple.js]) *)
(* ===================================================================== *)

Module Simple.

(** An instance of [Product] ([name], [productPrice]) or of [Collection]
    ([name], [set]). [num] is the type of prices. *)
Inductive item (num : Type) :=
| Product (name : string) (productPrice : num)
| Collection (name : string) (set : list loc).

Arguments Product {num} name productPrice.
Arguments Collection {num} name set.

(** ** [Set] of objects

    A [Set] keeps its members in insertion order and holds each at most
    once; objects are the same member when they are the same reference. *)
Definition Set_has (s : list loc) (x : loc) : bool := bool_decide (x ∈ s).

Definition Set_add (s : list loc) (x : loc) : list loc :=
  if Set_has s x then s else s ++ [x].

(** [new Set(iterable)] adds the elements one after the other. *)
Definition new_Set (xs : list loc) : list loc := fold_left Set_add xs [].

Section Price.
(** Prices are numbers of the host: [zero] is the literal [0] and [plus]
    is [+]. No law of arithmetic is assumed of them. *)
Context {num : Type} (zero : num) (plus : num -> num -> num).

(** [new Product(name, price)] *)
Definition new_Product (name : string) (price : num) (h : list (item num))
  : loc * list (item num) :=
  (length h, h ++ [Product name price]).

(** [new Collection(name, ...products)] *)
Definition new_Collection (name : string) (products : list loc)
    (h : list (item num)) : loc * list (item num) :=
  (length h, h ++ [Collection name (new_Set products)]).

(** [for (const item of this.set) { price += item.price; } return price;]
    where [get item] is [item.price]. *)
Fixpoint sum_prices (get : loc -> option num) (set : list loc) (price : num)
  : option num :=
  match set with
  | [] => Some price
  | item :: set =>
      match get item with
      | Some p => sum_prices get set (plus price p)
      | None => None
      end
  end.

(** The getter [price] of both classes. [None]: the nesting is deeper than
    [fuel], or a reference is outside the store. *)
Fixpoint price (fuel : nat) (h : list (item num)) (this : loc) : option num :=
  match fuel with
  | 0 => None
  | S fuel =>
      match h !! this with
      | Some (Product _ productPrice) => Some productPrice
      | Some (Collection _ set) => sum_prices (price fuel h) set zero
      | None => None
      end
  end.

(** [has_price h l v]: in store [h], reading [l.price] gives [v]. *)
Definition has_price (h : list (item num)) (l : loc) (v : num) : Prop :=
  exists n, price n h l = Some v.

(** Collections without cycles: [rank] decreases from a collection to each
    of its members, and every member is an object of the store. *)
Definition ranked (rank : loc -> nat) (h : list (item num)) : bool :=
  forallb
    (fun '(l, o) =>
       match o with
       | Collection _ set =>
           forallb (fun m => (rank m <? rank l)%nat && (m <? length h)%nat) set
       | Product _ _ => true
       end)
    (imap pair h).

End Price.

(** ** The usage script, with integer prices *)

Definition usage : loc * list (item Z) :=
  let h := [] in
  let '(p1, h) := new_Product "Laptop" 1500%Z h in
  let '(p2, h) := new_Product "Mouse" 25%Z h in
  let '(p3, h) := new_Product "Keyboard" 100%Z h in
  let '(p4, h) := new_Product "HDMI cable" 10%Z h in
  let '(electronics, h) := new_Collection "Electronics" [p1; p2; p3; p4] h in
  let '(p5, h) := new_Product "Bag" 50%Z h in
  let '(p6, h) := new_Product "Mouse pad" 5%Z h in
  let '(textile, h) := new_Collection "Textile" [p5; p6] h in
  new_Collection "Purchase" [electronics; textile] h.

Definition electronics : loc := 4.
Definition textile : loc := 7.
Definition purchase : loc := fst usage.
Definition usage_heap : list (item Z) := snd usage.

(** The sum of a list of integers. *)
Definition total (zs : list Z) : Z := fold_right Z.add 0%Z zs.

End Simple.

(* ===================================================================== *)
(** * Prices as numbers of the host *)
(* ===================================================================== *)

(** The numbers of the program are binary64 floating-point numbers, [0] is
    the float zero and [+] is the rounded addition of the standard. *)
Module SimpleFloat.
Import PrimFloat.
Import Simple.

(** A collection of two collections that share a product. *)
Definition shared : loc * list (item float) :=
  let h := [] in
  let '(p1, h) := new_Product "Pen" 3%float h in
  let '(p2, h) := new_Product "Ink" 1%float h in
  let '(p3, h) := new_Product "Pad" 2%float h in
  let '(desk, h) := new_Collection "Desk" [p1; p2] h in
  let '(bag, h) := new_Collection "Bag" [p2; p3] h in
  new_Collection "Both" [desk; bag] h.

Definition both : loc := fst shared.
Definition shared_heap : list (item float) := snd shared.

(** The integers from [-8] to [8] as floating-point numbers, with their
    values. *)
Definition small_integers : list (float * Z) :=
  [ ((-8)%float, (-8)%Z); ((-7)%float, (-7)%Z); ((-6)%float, (-6)%Z);
    ((-5)%float, (-5)%Z); ((-4)%float, (-4)%Z); ((-3)%float, (-3)%Z);
    ((-2)%float, (-2)%Z); ((-1)%float, (-1)%Z); (0%float, 0%Z);
    (1%float, 1%Z); (2%float, 2%Z); (3%float, 3%Z); (4%float, 4%Z);
    (5%float, 5%Z); (6%float, 6%Z); (7%float, 7%Z); (8%float, 8%Z) ].

Definition is_small_integer (x : float) : Prop :=
  In x (List.map fst small_integers).

Definition small_value (x : float) : Z :=
  match List.find (fun p => PrimFloat.eqb (fst p) x) small_integers with
  | Some p => snd p
  | None => 0%Z
  end.

End SimpleFloat.

(* ===================================================================== *)
(** * Properties of the view hierarchy *)
(* ===================================================================== *)

Module ViewSpec.
Import View.

Example usage_setup_heap :
  usage_setup (mkState [] []) = Some (Return undefined, mkState usage_heap []).
Proof. reflexivity. Qed.

Example usage_heap_ranked : ranked id usage_heap = true.
Proof. reflexivity. Qed.

Example usage_heap_concrete : concrete usage_heap = true.
Proof. reflexivity. Qed.

(** ** Sequencing and [forEach] *)

Lemma seq_Return (m k : M) s v s' :
  m s = Some (Return v, s') -> (m ;;; k) s = k s'.
Proof. intros H. unfold seq. now rewrite H. Qed.

Lemma seq_Throw (m k : M) s e s' :
  m s = Some (Throw e, s') -> (m ;;; k) s = Some (Throw e, s').
Proof. intros H. unfold seq. now rewrite H. Qed.

Lemma seq_inv (m k : M) s x :
  (m ;;; k) s = Some x ->
  (exists v s', m s = Some (Return v, s') /\ k s' = Some x) \/
  (exists e s', m s = Some (Throw e, s') /\ x = (Throw e, s')).
Proof.
  unfold seq. destruct (m s) as [[[v|e] s']|] eqn:E; intros H.
  - left. eauto.
  - right. inversion H. eauto.
  - discriminate.
Qed.

(** A loop over callbacks that agree with [f] wherever [f] completes
    behaves as the loop over [f]. *)
Lemma forEach_mono (f g : loc -> M) ks :
  (forall k s x, f k s = Some x -> g k s = Some x) ->
  forall s x, forEach f ks s = Some x -> forEach g ks s = Some x.
Proof.
  intros Hfg. induction ks as [|k ks IH]; intros s x H; [exact H|].
  cbn [forEach] in *. apply seq_inv in H as [(v & s' & Hk & Hrest)|(e & s' & Hk & ->)].
  - rewrite (seq_Return _ _ _ _ _ (Hfg _ _ _ Hk)). auto.
  - apply seq_Throw. auto.
Qed.

(** ** Fuel *)

Lemma invoke_S n this m s :
  invoke (S n) this m s =
  match heap s !! this with
  | Some o =>
      match resolve (class_of o) m with
      | Some c => body (fun child => invoke n child draw) c m this s
      | None => throw (TypeError "is not a function") s
      end
  | None => throw (TypeError "is not a function") s
  end.
Proof. reflexivity. Qed.

(** A method body run with a callback that completes more often completes
    the same way. *)
Lemma body_mono (f g : loc -> M) c m this :
  (forall k s x, f k s = Some x -> g k s = Some x) ->
  forall s x, body f c m this s = Some x -> body g c m this s = Some x.
Proof.
  intros Hfg s x.
  assert (Hvc : forall s x, ViewComposite_draw f this s = Some x ->
                            ViewComposite_draw g this s = Some x).
  { intros s0 x0. unfold ViewComposite_draw.
    destruct (heap s0 !! this ≫= children_of); [|auto].
    apply forEach_mono, Hfg. }
  destruct c, m; cbn [body]; try (intros H; exact H); try apply Hvc.
  unfold DecoratorComposite_draw. intros H.
  apply seq_inv in H as [(v & s1 & H1 & H)|(e & s1 & H1 & ->)]; [|discriminate].
  rewrite (seq_Return _ _ _ _ _ H1).
  apply seq_inv in H as [(w & s2 & H2 & H)|(e & s2 & H2 & ->)].
  - rewrite (seq_Return _ _ _ _ _ (Hvc _ _ H2)). exact H.
  - apply seq_Throw, Hvc, H2.
Qed.

(** More fuel does not change a call that completed. *)
Lemma invoke_mono n n' this m s x :
  n <= n' -> invoke n this m s = Some x -> invoke n' this m s = Some x.
Proof.
  revert n' this m s x. induction n as [|n IH]; intros n' this m s x Hle H.
  - discriminate.
  - destruct n' as [|n']; [lia|]. rewrite invoke_S in *.
    destruct (heap s !! this) as [o|]; [|exact H].
    destruct (resolve (class_of o) m) as [c|]; [|exact H].
    revert H. apply body_mono. intros k s0 x0. apply IH. lia.
Qed.

(** ** Frame: [draw] only prints *)

Lemma forEach_heap (f : loc -> M) ks :
  (forall k s r s', f k s = Some (r, s') -> heap s' = heap s) ->
  forall s r s', forEach f ks s = Some (r, s') -> heap s' = heap s.
Proof.
  intros Hf. induction ks as [|k ks IH]; intros s r s' H.
  - now inversion H.
  - cbn [forEach] in H.
    apply seq_inv in H as [(v & s1 & Hk & Hrest)|(e & s1 & Hk & [= -> ->])].
    + rewrite (IH _ _ _ Hrest). eauto.
    + eauto.
Qed.

Lemma ViewComposite_draw_heap (f : loc -> M) this :
  (forall k s r s', f k s = Some (r, s') -> heap s' = heap s) ->
  forall s r s', ViewComposite_draw f this s = Some (r, s') -> heap s' = heap s.
Proof.
  intros Hf s r s'. unfold ViewComposite_draw.
  destruct (heap s !! this ≫= children_of).
  - now apply forEach_heap.
  - now intros [= _ ->].
Qed.

Lemma draw_heap n this s r s' :
  invoke n this draw s = Some (r, s') -> heap s' = heap s.
Proof.
  revert this s r s'. induction n as [|n IH]; intros this s r s' H; [discriminate|].
  rewrite invoke_S in H.
  destruct (heap s !! this) as [o|]; [|now inversion H].
  destruct (resolve (class_of o) draw) as [c|]; [|now inversion H].
  destruct c; cbn [body] in H.
  - now inversion H.
  - revert H. apply ViewComposite_draw_heap. eauto.
  - unfold DecoratorComposite_draw in H.
    apply seq_inv in H as [(v & s1 & [= _ <-] & H)|(e & s1 & H1 & _)]; [|discriminate].
    apply seq_inv in H as [(w & s2 & H2 & [= _ <-])|(e & s2 & H2 & [= _ <-])];
      apply ViewComposite_draw_heap in H2; eauto.
  - unfold PrintLeaf_draw in H. destruct (heap s !! this) as [[]|]; now inversion H.
Qed.

(** ** Hierarchies without cycles *)

Lemma ranked_children rank h l o ks k :
  ranked rank h = true -> h !! l = Some o -> children_of o = Some ks ->
  k ∈ ks -> rank k < rank l /\ k < length h.
Proof.
  unfold ranked. rewrite forallb_forall. intros Hall Hl Hks Hk.
  specialize (Hall (l, o)). cbn beta iota in Hall. rewrite Hks in Hall.
  rewrite forallb_forall in Hall.
  assert (Hin : In (l, o) (imap pair h)).
  { apply list_elem_of_In, list_elem_of_lookup. exists l.
    rewrite list_lookup_imap, Hl. reflexivity. }
  specialize (Hall Hin k (proj1 (list_elem_of_In _ _) Hk)).
  apply andb_true_iff in Hall as [H1 H2].
  apply Nat.ltb_lt in H1, H2. auto.
Qed.

(** A loop over callbacks that all complete, from some fuel on and whatever
    the console holds, completes as well. *)
Lemma forEach_total (fam : nat -> loc -> M) N h ks :
  (forall k, k ∈ ks -> exists r o, forall n out, N <= n ->
      fam n k (mkState h out) = Some (r, mkState h (out ++ o))) ->
  exists r o, forall n out, N <= n ->
      forEach (fam n) ks (mkState h out) = Some (r, mkState h (out ++ o)).
Proof.
  induction ks as [|k ks IH]; intros Hks.
  - exists (Return undefined), []. intros n out _. cbn. now rewrite app_nil_r.
  - destruct (Hks k) as ([v|e] & ok & Hk); [left|..].
    + destruct IH as (r & o & Hrest).
      { intros k' Hk'. apply Hks. now right. }
      exists r, (ok ++ o). intros n out Hn. cbn [forEach].
      rewrite (seq_Return _ _ _ _ _ (Hk n out Hn)), app_assoc. now apply Hrest.
    + exists (Throw e), ok. intros n out Hn. cbn [forEach].
      apply seq_Throw. now apply Hk.
Qed.

Lemma ViewComposite_draw_total (fam : nat -> loc -> M) N h this o ks :
  h !! this = Some o -> children_of o = Some ks ->
  (forall k, k ∈ ks -> exists r o, forall n out, N <= n ->
      fam n k (mkState h out) = Some (r, mkState h (out ++ o))) ->
  exists r o, forall n out, N <= n ->
      ViewComposite_draw (fam n) this (mkState h out)
      = Some (r, mkState h (out ++ o)).
Proof.
  intros Hthis Hks Hall. destruct (forEach_total fam N h ks Hall) as (r & o' & H).
  exists r, o'. intros n out Hn. unfold ViewComposite_draw. cbn [heap].
  rewrite Hthis. cbn. rewrite Hks. now apply H.
Qed.

(** In a hierarchy without cycles every [draw] completes: with a result and
    an output that depend neither on the fuel, once it exceeds the rank of
    the receiver, nor on what the console held before. *)
Lemma draw_total rank h :
  ranked rank h = true ->
  forall l, l < length h ->
  exists r o, forall n out, rank l < n ->
    invoke n l draw (mkState h out) = Some (r, mkState h (out ++ o)).
Proof.
  intros Hr.
  enough (H : forall b l, rank l < b -> l < length h ->
            exists r o, forall n out, rank l < n ->
              invoke n l draw (mkState h out) = Some (r, mkState h (out ++ o))).
  { intros l. apply (H (S (rank l))). lia. }
  induction b as [|b IH]; intros l Hb Hl; [lia|].
  destruct (lookup_lt_is_Some_2 h l Hl) as [o Ho].
  assert (Hkids : forall ks, children_of o = Some ks ->
            forall k, k ∈ ks -> exists r o, forall n out, rank l <= n ->
              invoke n k draw (mkState h out) = Some (r, mkState h (out ++ o))).
  { intros ks Hks k Hk.
    destruct (ranked_children rank h l o ks k Hr Ho Hks Hk) as [Hlt Hin].
    destruct (IH k ltac:(lia) Hin) as (r & o' & H).
    exists r, o'. intros n out Hn. apply H. lia. }
  destruct o as [|ks|ks|text].
  - exists (Throw (Error "Not implemented")), []. intros [|n] out Hn; [lia|].
    rewrite invoke_S. cbn [heap]. rewrite Ho. cbn. now rewrite app_nil_r.
  - destruct (ViewComposite_draw_total (fun n k => invoke n k draw) (rank l) h l
                _ ks Ho eq_refl (Hkids ks eq_refl)) as (r & o' & H).
    exists r, o'. intros [|n] out Hn; [lia|].
    rewrite invoke_S. cbn [heap]. rewrite Ho. cbn [class_of]. apply H. lia.
  - destruct (ViewComposite_draw_total (fun n k => invoke n k draw) (rank l) h l
                _ ks Ho eq_refl (Hkids ks eq_refl)) as ([v|e] & o' & H).
    + exists (Return undefined), ("NestedStart" :: o' ++ ["NestedEnd"]).
      intros [|n] out Hn; [lia|].
      rewrite invoke_S. cbn [heap]. rewrite Ho. cbn [class_of].
      change (resolve CDecoratorComposite draw) with (Some CDecoratorComposite).
      cbn [body]. unfold DecoratorComposite_draw.
      erewrite seq_Return by reflexivity. cbn [heap console].
      erewrite seq_Return by (apply H; lia).
      unfold console_log. cbn [heap console].
      now rewrite <- !app_assoc.
    + exists (Throw e), ("NestedStart" :: o').
      intros [|n] out Hn; [lia|].
      rewrite invoke_S. cbn [heap]. rewrite Ho. cbn [class_of].
      change (resolve CDecoratorComposite draw) with (Some CDecoratorComposite).
      cbn [body]. unfold DecoratorComposite_draw.
      erewrite seq_Return by reflexivity. cbn [heap console].
      erewrite seq_Throw by (apply H; lia).
      now rewrite <- !app_assoc.
  - exists (Return undefined), [text]. intros [|n] out Hn; [lia|].
    rewrite invoke_S. cbn [heap]. rewrite Ho. cbn.
    unfold PrintLeaf_draw. cbn [heap]. now rewrite Ho.
Qed.

(** A composite that contains itself: its [draw] completes with no fuel,
    the nesting of calls has no end. *)
Example self_containing_never_completes n out :
  invoke n 0 draw (mkState [ViewComposite [0]] out) = None.
Proof.
  induction n as [|n IH]; [reflexivity|].
  rewrite invoke_S. cbn. unfold ViewComposite_draw. cbn. unfold seq.
  now rewrite IH.
Qed.

(** A child whose [draw] throws ends the loop: the composite throws the
    same error and the children after it are not drawn. *)
Example throwing_child_aborts :
  invoke 2 2 draw (mkState [ViewComponent; PrintLeaf "late"; ViewComposite [0; 1]] [])
  = Some (Throw (Error "Not implemented"),
          mkState [ViewComponent; PrintLeaf "late"; ViewComposite [0; 1]] []).
Proof. reflexivity. Qed.

(** ** Composition of outputs *)

Lemma forEach_concat (f : loc -> M) h ks os :
  Forall2 (fun k o => forall out,
             f k (mkState h out) = Some (Return undefined, mkState h (out ++ o)))
          ks os ->
  forall out,
    forEach f ks (mkState h out)
    = Some (Return undefined, mkState h (out ++ concat os)).
Proof.
  induction 1 as [|k o ks os Hk _ IH]; intros out; cbn [forEach concat].
  - unfold ret. now rewrite app_nil_r.
  - rewrite (seq_Return _ _ _ _ _ (Hk out)), IH. now rewrite app_assoc.
Qed.

(** Finitely many completed calls complete with one common fuel. *)
Lemma draws_common_fuel h ks os :
  Forall2 (draws h) ks os ->
  exists n, Forall2 (fun k o => forall out,
      invoke n k draw (mkState h out)
      = Some (Return undefined, mkState h (out ++ o))) ks os.
Proof.
  induction 1 as [|k o ks os [n1 Hk] _ [n2 IH]].
  - exists 0. constructor.
  - exists (Nat.max n1 n2). constructor.
    + intros out. apply (invoke_mono n1); [lia|apply Hk].
    + eapply Forall2_impl; [exact IH|]. cbn beta.
      intros k' o' H' out. apply (invoke_mono n2); [lia|apply H'].
Qed.

Lemma children_draw_concat h this o ks os :
  h !! this = Some o -> children_of o = Some ks ->
  Forall2 (draws h) ks os ->
  exists n, forall out,
    ViewComposite_draw (fun child => invoke n child draw) this (mkState h out)
    = Some (Return undefined, mkState h (out ++ concat os)).
Proof.
  intros Hthis Hks Hall. destruct (draws_common_fuel _ _ _ Hall) as [n Hn].
  exists n. intros out. unfold ViewComposite_draw. cbn [heap].
  rewrite Hthis. cbn [mbind option_bind]. rewrite Hks.
  now apply forEach_concat.
Qed.

(** The decorator's own part: the two marker lines around what
    [super.draw()] prints. *)
Lemma DecoratorComposite_draw_run n h c ks o :
  h !! c = Some (DecoratorComposite ks) ->
  (forall out,
     ViewComposite_draw (fun child => invoke n child draw) c (mkState h out)
     = Some (Return undefined, mkState h (out ++ o))) ->
  forall out,
    invoke (S n) c draw (mkState h out)
    = Some (Return undefined,
            mkState h (out ++ ["NestedStart"] ++ o ++ ["NestedEnd"])).
Proof.
  intros Hc Hn out. rewrite invoke_S. cbn [heap]. rewrite Hc. cbn [class_of].
  change (resolve CDecoratorComposite draw) with (Some CDecoratorComposite).
  cbn [body]. unfold DecoratorComposite_draw.
  erewrite seq_Return by reflexivity. cbn [heap console].
  erewrite seq_Return by apply Hn.
  unfold console_log. cbn [heap console]. now rewrite <- !app_assoc.
Qed.

(** A leaf prints its text. *)
Lemma PrintLeaf_draws h l text : h !! l = Some (PrintLeaf text) -> draws h l [text].
Proof.
  intros Hl. exists 1. intros out. rewrite invoke_S. cbn [heap]. rewrite Hl.
  cbn. unfold PrintLeaf_draw. cbn [heap]. now rewrite Hl.
Qed.

(** X15. In a hierarchy of leaves, composites and decorators without
    cycles, every [draw] returns: each object prints some lines and leaves
    the store as it was. *)
Lemma draws_total rank h :
  ranked rank h = true -> concrete h = true ->
  forall l, l < length h -> exists o, draws h l o.
Proof.
  intros Hr Hc.
  enough (H : forall b l, rank l < b -> l < length h -> exists o, draws h l o).
  { intros l. apply (H (S (rank l))). lia. }
  induction b as [|b IH]; intros l Hb Hl; [lia|].
  destruct (lookup_lt_is_Some_2 h l Hl) as [o Ho].
  assert (Hkids : forall ks, children_of o = Some ks ->
            exists os, Forall2 (draws h) ks os).
  { intros ks Hks.
    assert (Hin : forall k, k ∈ ks -> exists o', draws h k o').
    { intros k Hk.
      destruct (ranked_children rank h l o ks k Hr Ho Hks Hk) as [Hlt Hk'].
      apply IH; [lia|exact Hk']. }
    clear Hks. induction ks as [|k ks IHks].
    - exists []. constructor.
    - destruct (Hin k) as [o1 H1]; [left|].
      destruct IHks as [os Hos]; [intros k' Hk'; apply Hin; now right|].
      exists (o1 :: os). now constructor. }
  destruct o as [|ks|ks|text].
  - exfalso. unfold concrete in Hc. rewrite forallb_forall in Hc.
    specialize (Hc ViewComponent). cbn in Hc.
    assert (true = false); [|discriminate]. symmetry. apply Hc.
    apply list_elem_of_In, list_elem_of_lookup. eauto.
  - destruct (Hkids ks eq_refl) as [os Hos].
    destruct (children_draw_concat h l _ ks os Ho eq_refl Hos) as [n Hn].
    exists (concat os), (S n). intros out. rewrite invoke_S. cbn [heap].
    rewrite Ho. apply Hn.
  - destruct (Hkids ks eq_refl) as [os Hos].
    destruct (children_draw_concat h l _ ks os Ho eq_refl Hos) as [n Hn].
    eexists. exists (S n). exact (DecoratorComposite_draw_run n h l ks _ Ho Hn).
  - exists [text]. now apply PrintLeaf_draws.
Qed.

Lemma draws_total_witness : exists o, draws usage_heap nestedView o.
Proof.
  exact (draws_total id usage_heap eq_refl eq_refl nestedView
           ltac:(unfold nestedView; cbn; lia)).
Defined.

(** C3. [ViewComposite.draw()] calls [draw()] on each child in insertion
    order and returns [undefined]: when the children print [os] (child by
    child, in the order of [#children]), the composite prints exactly the
    concatenation of [os], and leaves the store as it was. *)
Theorem ViewComposite_draw_concat h c ks os :
  h !! c = Some (ViewComposite ks) ->
  Forall2 (draws h) ks os ->
  draws h c (concat os).
Proof.
  intros Hc Hall.
  destruct (children_draw_concat h c _ ks os Hc eq_refl Hall) as [n Hn].
  exists (S n). intros out. rewrite invoke_S. cbn [heap]. rewrite Hc.
  apply Hn.
Qed.

(** Scenario: a composite of [hello] and [world] prints "hello", then
    "world". *)
Lemma ViewComposite_draw_concat_witness :
  usage_heap !! helloView = Some (ViewComposite [hello; world]) /\
  Forall2 (draws usage_heap) [hello; world] [["hello"]; ["world"]] /\
  draws usage_heap helloView ["hello"; "world"].
Proof.
  assert (H : Forall2 (draws usage_heap) [hello; world] [["hello"]; ["world"]]).
  { repeat constructor; now apply PrintLeaf_draws. }
  split; [reflexivity|]. split; [exact H|].
  exact (ViewComposite_draw_concat usage_heap helloView [hello; world]
           [["hello"]; ["world"]] eq_refl H).
Defined.

(** C4. [DecoratorComposite.draw()] prints the line "NestedStart", then what
    its children print in insertion order, then the line "NestedEnd". *)
Theorem DecoratorComposite_draw_markers h c ks os :
  h !! c = Some (DecoratorComposite ks) ->
  Forall2 (draws h) ks os ->
  draws h c (["NestedStart"] ++ concat os ++ ["NestedEnd"]).
Proof.
  intros Hc Hall.
  destruct (children_draw_concat h c _ ks os Hc eq_refl Hall) as [n Hn].
  exists (S n). exact (DecoratorComposite_draw_run n h c ks _ Hc Hn).
Qed.

(** Scenario: a decorator over two composites of two leaves each. *)
Lemma DecoratorComposite_draw_markers_witness :
  usage_heap !! nestedView = Some (DecoratorComposite [helloView; jsView]) /\
  draws usage_heap nestedView
    ["NestedStart"; "hello"; "world"; "world"; "js"; "NestedEnd"].
Proof.
  split; [reflexivity|].
  refine (DecoratorComposite_draw_markers usage_heap nestedView
            [helloView; jsView] [["hello"; "world"]; ["world"; "js"]] eq_refl _).
  repeat constructor; exists 2; intros out; cbn; now rewrite <- app_assoc.
Defined.

(** C8. [PrintLeaf.draw()] prints one line, the leaf's text, and changes
    nothing else: a second call prints the same line again, from the same
    leaf. *)
Theorem PrintLeaf_draw_idempotent n h l text out :
  h !! l = Some (PrintLeaf text) ->
  invoke (S n) l draw (mkState h out)
    = Some (Return undefined, mkState h (out ++ [text])) /\
  invoke (S n) l draw (mkState h (out ++ [text]))
    = Some (Return undefined, mkState h ((out ++ [text]) ++ [text])).
Proof.
  intros Hl.
  assert (H : forall out', invoke (S n) l draw (mkState h out')
                = Some (Return undefined, mkState h (out' ++ [text]))).
  { intros out'. rewrite invoke_S. cbn [heap]. rewrite Hl. cbn.
    unfold PrintLeaf_draw. cbn [heap]. now rewrite Hl. }
  split; apply H.
Qed.

(** Scenario: [hello.draw()] prints exactly the line "hello". *)
Lemma PrintLeaf_draw_idempotent_witness :
  usage_heap !! hello = Some (PrintLeaf "hello") /\
  invoke 1 hello draw (mkState usage_heap [])
    = Some (Return undefined, mkState usage_heap ["hello"]) /\
  invoke 1 hello draw (mkState usage_heap ["hello"])
    = Some (Return undefined, mkState usage_heap ["hello"; "hello"]).
Proof.
  split; [reflexivity|].
  exact (PrintLeaf_draw_idempotent 0 usage_heap hello "hello" [] eq_refl).
Defined.

(** C10. [draw()] leaves [#children] of the composite it is called on as it
    was: whatever way the call completes, the child sequence afterwards is
    the one before; and in a hierarchy without cycles the call does
    complete. *)
Theorem draw_keeps_children s c ks :
  heap s !! c ≫= children_of = Some ks ->
  (forall n r s', invoke n c draw s = Some (r, s') ->
     heap s' !! c ≫= children_of = Some ks) /\
  (forall rank, ranked rank (heap s) = true ->
     exists r s', forall n, rank c < n -> invoke n c draw s = Some (r, s')).
Proof.
  intros Hks. split.
  - intros n r s' H. now rewrite (draw_heap _ _ _ _ _ H).
  - intros rank Hr. destruct s as [h out]. cbn [heap] in *.
    assert (Hc : c < length h).
    { destruct (h !! c) eqn:E; [|discriminate]. eapply lookup_lt_Some, E. }
    destruct (draw_total rank h Hr c Hc) as (r & o & H).
    exists r, (mkState h (out ++ o)). intros n Hn. now apply H.
Qed.

Lemma draw_keeps_children_witness :
  let s' := mkState usage_heap
              ["NestedStart"; "hello"; "world"; "world"; "js"; "NestedEnd"] in
  invoke 3 nestedView draw (mkState usage_heap []) = Some (Return undefined, s') /\
  heap s' !! nestedView ≫= children_of = Some [helloView; jsView].
Proof.
  split; [reflexivity|].
  exact (proj1 (draw_keeps_children (mkState usage_heap []) nestedView
                  [helloView; jsView] eq_refl) 3 _ _ eq_refl).
Defined.

(** ** Iteration *)

(** Each step yields the child at the iterator's index and moves on. *)
Lemma next_lookup s c ks i k :
  heap s !! c ≫= children_of = Some ks -> ks !! i = Some k ->
  next (mkIter (Some c) i) s = (Some k, mkIter (Some c) (S i)).
Proof. intros Hks Hk. unfold next. cbn. rewrite Hks. cbn. now rewrite Hk. Qed.

(** Past the last child the iterator is done, and it stays done. *)
Lemma next_done s c ks i :
  heap s !! c ≫= children_of = Some ks -> length ks <= i ->
  next (mkIter (Some c) i) s = (None, mkIter None i) /\
  next (mkIter None i) s = (None, mkIter None i).
Proof.
  intros Hks Hi. unfold next. cbn. rewrite Hks. cbn.
  now rewrite (lookup_ge_None_2 ks i Hi).
Qed.

Lemma drain_drop s c ks steps i :
  heap s !! c ≫= children_of = Some ks ->
  length ks - i < steps ->
  drain steps (mkIter (Some c) i) s = Some (drop i ks).
Proof.
  intros Hks. revert i. induction steps as [|steps IH]; intros i Hi; [lia|].
  cbn [drain]. destruct (ks !! i) as [k|] eqn:Hk.
  - rewrite (next_lookup s c ks i k Hks Hk).
    pose proof (lookup_lt_Some _ _ _ Hk).
    rewrite IH by lia. cbn. now rewrite (drop_S ks k i Hk).
  - apply lookup_ge_None_1 in Hk.
    rewrite (proj1 (next_done s c ks i Hks Hk)). now rewrite drop_ge.
Qed.

(** C7. Iterating a composite (or a decorator, which inherits the method)
    yields its direct children and nothing else, each entry of [#children]
    once and in insertion order, after finitely many steps; it changes
    nothing, and a second iteration yields the same sequence. *)
Theorem iteration_yields_children fuel s c ks :
  heap s !! c ≫= children_of = Some ks ->
  length ks < fuel ->
  spread fuel c s = Some (inl ks, s) /\
  (spread fuel c s ≫= fun '(_, s') => spread fuel c s') = Some (inl ks, s).
Proof.
  intros Hks Hfuel.
  assert (H : spread fuel c s = Some (inl ks, s)).
  { destruct fuel as [|fuel]; [lia|]. unfold spread. rewrite invoke_S.
    destruct (heap s !! c) as [o|] eqn:Ho; [|discriminate]. cbn in Hks.
    assert (Hres : resolve (class_of o) Symbol_iterator = Some CViewComposite)
      by (destruct o; try discriminate; reflexivity).
    rewrite Hres. cbn [body]. unfold ViewComposite_iterator.
    rewrite Ho. cbn [mbind option_bind]. rewrite Hks. cbn [ret].
    rewrite (drain_drop s c ks (S fuel) 0); [reflexivity| |lia].
    rewrite Ho. exact Hks. }
  split; [exact H|]. rewrite H. exact H.
Qed.

(** Scenario: iterating [nestedView] yields the two composites, not their
    leaves. *)
Lemma iteration_yields_children_witness :
  let s := mkState usage_heap [] in
  heap s !! nestedView ≫= children_of = Some [helloView; jsView] /\
  spread 3 nestedView s = Some (inl [helloView; jsView], s) /\
  (spread 3 nestedView s ≫= fun '(_, s') => spread 3 nestedView s')
    = Some (inl [helloView; jsView], s).
Proof.
  split; [reflexivity|].
  apply (iteration_yields_children 3 (mkState usage_heap []) nestedView
           [helloView; jsView]); [reflexivity | cbn; lia].
Defined.

(** The loop of the usage script: drawing the children of [nestedView] one
    by one prints the leaves without the decorator's markers. *)
Example usage_for_of :
  for_of 3 nestedView (fun child => invoke 3 child draw) (mkState usage_heap [])
  = Some (Return undefined, mkState usage_heap ["hello"; "world"; "world"; "js"]).
Proof. reflexivity. Qed.

(** ** [add] *)

(** [add(child)] puts the child at the end of [#children]: the order of
    [#children] is the order of insertion. *)
Lemma add_appends n s c o ks child :
  heap s !! c = Some o -> children_of o = Some ks ->
  invoke (S n) c (add child) s
  = Some (Return undefined,
          mkState (<[c := with_children o (ks ++ [child])]> (heap s)) (console s)).
Proof.
  intros Ho Hks. rewrite invoke_S, Ho.
  assert (Hres : resolve (class_of o) (add child) = Some CViewComposite)
    by (destruct o; try discriminate; reflexivity).
  rewrite Hres. cbn [body]. unfold ViewComposite_add. now rewrite Ho, Hks.
Qed.

(** ** [remove] *)

(** X14. Whatever the receiver and the argument, [remove] throws a
    [TypeError] and changes nothing: no call of [remove] removes a child. *)
Lemma remove_throws n this child s :
  exists msg,
    invoke (S n) this (remove child) s = Some (Throw (TypeError msg), s).
Proof.
  rewrite invoke_S. destruct (heap s !! this) as [o|] eqn:Ho; [|cbn; eauto].
  destruct o; cbn; unfold ViewComposite_remove; rewrite ?Ho; cbn; eauto.
Qed.

(** C1. On the composite of [hello] and [world], [remove(hello)] does not
    return: it throws a [TypeError], because an array has no [remove]
    method. [hello] stays in [#children], and the next [draw()] still
    prints it. *)
Theorem remove_does_not_remove :
  invoke 1 helloView (remove hello) (mkState usage_heap [])
    = Some (Throw (TypeError "this.#children.remove is not a function"),
            mkState usage_heap []) /\
  usage_heap !! helloView = Some (ViewComposite [hello; world]) /\
  invoke 2 helloView draw (mkState usage_heap [])
    = Some (Return undefined, mkState usage_heap ["hello"; "world"]).
Proof. repeat split. Qed.

(** ** Calls that a variant does not support *)

(** Read to the letter, C5 has [hello.add(world)] throw the error of
    [ViewComponent.draw]. It throws a [TypeError] instead: no class of the
    chain of [PrintLeaf] declares [add]. *)
Lemma PrintLeaf_add_is_TypeError :
  invoke 1 hello (add world) (mkState usage_heap [])
    = Some (Throw (TypeError "is not a function"), mkState usage_heap []) /\
  ~ (exists s', invoke 1 hello (add world) (mkState usage_heap [])
                = Some (Throw (Error "Not implemented"), s')).
Proof.
  split; [reflexivity|]. intros [s' H]. discriminate H.
Qed.

(** C5, amended. [draw()] on an instance of the base class throws
    [Error('Not implemented')]; [add], [remove] and [[Symbol.iterator]] on a
    leaf throw a [TypeError], since the method does not exist. In each case
    the call throws, changes nothing, and never returns. *)
Theorem unsupported_call_throws n s l o m :
  heap s !! l = Some o ->
  (o = ViewComponent /\ m = draw) \/ ((exists text, o = PrintLeaf text) /\ m <> draw) ->
  exists e,
    invoke (S n) l m s = Some (Throw e, s) /\
    match m with
    | draw => e = Error "Not implemented"
    | _ => exists msg, e = TypeError msg
    end.
Proof.
  intros Hl [[-> ->]|[[text ->] Hm]]; rewrite invoke_S, Hl.
  - eexists. split; reflexivity.
  - destruct m; [congruence|..]; eexists; (split; [reflexivity|eauto]).
Qed.

Lemma unsupported_call_throws_witness :
  (exists e, invoke 1 0 draw (mkState [ViewComponent] []) = Some (Throw e, mkState [ViewComponent] [])
             /\ e = Error "Not implemented") /\
  (exists e, invoke 1 hello (add world) (mkState usage_heap [])
             = Some (Throw e, mkState usage_heap [])
             /\ exists msg, e = TypeError msg).
Proof.
  split.
  - apply (unsupported_call_throws 0 (mkState [ViewComponent] []) 0 ViewComponent draw eq_refl).
    left. split; reflexivity.
  - apply (unsupported_call_throws 0 (mkState usage_heap []) hello
             (PrintLeaf "hello") (add world) eq_refl).
    right. split; [eexists; reflexivity | discriminate].
Defined.

(** Iterating a leaf fails the same way: [[...leaf]] throws. *)
Lemma PrintLeaf_spread_throws n s l text :
  heap s !! l = Some (PrintLeaf text) ->
  spread (S n) l s = Some (inr (TypeError "is not a function"), s).
Proof. intros Hl. unfold spread. rewrite invoke_S, Hl. reflexivity. Qed.

(* --------------------------------------------------------------------- *)
(** ** Further properties of the view hierarchy *)
(* --------------------------------------------------------------------- *)

(** *** What [draw] does to the console *)

Lemma appends_only_throw h e : appends_only h (throw e).
Proof.
  intros out r s' [= <- <-]. exists []. rewrite app_nil_r. split; [reflexivity|].
  intros out'. now rewrite app_nil_r.
Qed.

Lemma appends_only_console_log h line : appends_only h (console_log line).
Proof. intros out r s' [= <- <-]. exists [line]. split; reflexivity. Qed.

Lemma appends_only_seq h (m k : M) :
  appends_only h m -> appends_only h k -> appends_only h (m ;;; k).
Proof.
  intros Hm Hk out r s' H.
  apply seq_inv in H as [(v & s1 & H1 & H2)|(e & s1 & H1 & [= -> ->])].
  - destruct (Hm _ _ _ H1) as (o1 & -> & Hm').
    destruct (Hk _ _ _ H2) as (o2 & -> & Hk').
    exists (o1 ++ o2). rewrite app_assoc. split; [reflexivity|].
    intros out'. rewrite (seq_Return _ _ _ _ _ (Hm' out')), app_assoc. apply Hk'.
  - destruct (Hm _ _ _ H1) as (o1 & -> & Hm').
    exists o1. split; [reflexivity|]. intros out'. apply seq_Throw, Hm'.
Qed.

Lemma appends_only_forEach h (f : loc -> M) ks :
  (forall k, appends_only h (f k)) -> appends_only h (forEach f ks).
Proof.
  intros Hf. induction ks as [|k ks IH]; cbn [forEach].
  - intros out r s' [= <- <-]. exists []. rewrite app_nil_r. split; [reflexivity|].
    intros out'. unfold ret. now rewrite app_nil_r.
  - apply appends_only_seq; auto.
Qed.

Lemma appends_only_ViewComposite_draw h (f : loc -> M) this :
  (forall k, appends_only h (f k)) -> appends_only h (ViewComposite_draw f this).
Proof.
  intros Hf out r s'. unfold ViewComposite_draw. cbn [heap].
  destruct (h !! this ≫= children_of) as [ks|] eqn:E.
  - intros H. destruct (appends_only_forEach h f ks Hf _ _ _ H) as (o & -> & H').
    exists o. split; [reflexivity|]. intros out'. apply H'.
  - intros H. destruct (appends_only_throw h _ _ _ _ H) as (o & -> & H').
    exists o. split; [reflexivity|]. intros out'. apply H'.
Qed.

Lemma appends_only_draw h n l : appends_only h (invoke n l draw).
Proof.
  revert l. induction n as [|n IH]; intros l; [intros out r s' [=]|].
  assert (Hgen : forall f : M,
    (forall out, invoke (S n) l draw (mkState h out) = f (mkState h out)) ->
    appends_only h f -> appends_only h (invoke (S n) l draw)).
  { intros f Heq Hf out r s' H. rewrite Heq in H.
    destruct (Hf _ _ _ H) as (o & -> & H'). exists o. split; [reflexivity|].
    intros out'. rewrite Heq. apply H'. }
  destruct (h !! l) as [o|] eqn:Hl.
  - destruct o as [|ks|ks|text].
    + apply (Hgen (throw (Error "Not implemented"))); [|apply appends_only_throw].
      intros out. rewrite invoke_S. cbn [heap]. now rewrite Hl.
    + apply (Hgen (ViewComposite_draw (fun child => invoke n child draw) l)).
      * intros out. rewrite invoke_S. cbn [heap]. now rewrite Hl.
      * now apply appends_only_ViewComposite_draw.
    + apply (Hgen (DecoratorComposite_draw (fun child => invoke n child draw) l)).
      * intros out. rewrite invoke_S. cbn [heap]. now rewrite Hl.
      * unfold DecoratorComposite_draw.
        repeat apply appends_only_seq; try apply appends_only_console_log.
        now apply appends_only_ViewComposite_draw.
    + apply (Hgen (console_log text)); [|apply appends_only_console_log].
      intros out. rewrite invoke_S. cbn [heap]. rewrite Hl. cbn.
      unfold PrintLeaf_draw. cbn [heap]. now rewrite Hl.
  - apply (Hgen (throw (TypeError "is not a function"))); [|apply appends_only_throw].
    intros out. rewrite invoke_S. cbn [heap]. now rewrite Hl.
Qed.

(** X1. [draw()] never erases or rewrites what is on the console and never
    touches the store: whether it returns or throws, it has only added lines
    at the end, and these lines and the completion do not depend on what
    the console held when the call began. *)
Theorem draw_output_independent n l h out r s' :
  invoke n l draw (mkState h out) = Some (r, s') ->
  exists o, s' = mkState h (out ++ o) /\
    forall out', invoke n l draw (mkState h out') = Some (r, mkState h (out' ++ o)).
Proof. apply appends_only_draw. Qed.

Lemma draw_output_independent_witness :
  exists o,
    mkState usage_heap ["before"; "NestedStart"; "hello"; "world"; "world"; "js"; "NestedEnd"]
    = mkState usage_heap (["before"] ++ o) /\
    forall out', invoke 3 nestedView draw (mkState usage_heap out')
                 = Some (Return undefined, mkState usage_heap (out' ++ o)).
Proof.
  exact (draw_output_independent 3 nestedView usage_heap ["before"] _ _ eq_refl).
Defined.

(** *** [draw] looks only at what the receiver reaches *)

Lemma forEach_agree h1 h2 (f : loc -> M) ks :
  (forall k s r s', f k s = Some (r, s') -> heap s' = heap s) ->
  (forall k out r s', k ∈ ks -> f k (mkState h1 out) = Some (r, s') ->
     f k (mkState h2 out) = Some (r, mkState h2 (console s'))) ->
  forall out r s', forEach f ks (mkState h1 out) = Some (r, s') ->
    forEach f ks (mkState h2 out) = Some (r, mkState h2 (console s')).
Proof.
  intros Hframe. induction ks as [|k ks IH]; intros Hf out r s' H.
  - now inversion H.
  - cbn [forEach] in *.
    apply seq_inv in H as [(v & s1 & H1 & H2)|(e & s1 & H1 & [= -> ->])].
    + pose proof (Hframe _ _ _ _ H1) as Hh. destruct s1 as [h1' out1].
      cbn in Hh. subst h1'.
      rewrite (seq_Return _ _ _ _ _ (Hf k _ _ _ (list_elem_of_here _ _) H1)).
      cbn [console]. apply IH; [|exact H2].
      intros k' out' r' s'' Hk'. apply Hf. now right.
    + apply seq_Throw. apply Hf; [left|exact H1].
Qed.

Lemma ViewComposite_draw_agree h1 h2 (f : loc -> M) this o :
  h1 !! this = Some o -> h2 !! this = Some o ->
  (forall k s r s', f k s = Some (r, s') -> heap s' = heap s) ->
  (forall ks k out r s', children_of o = Some ks -> k ∈ ks ->
     f k (mkState h1 out) = Some (r, s') ->
     f k (mkState h2 out) = Some (r, mkState h2 (console s'))) ->
  forall out r s', ViewComposite_draw f this (mkState h1 out) = Some (r, s') ->
    ViewComposite_draw f this (mkState h2 out) = Some (r, mkState h2 (console s')).
Proof.
  intros H1 H2 Hframe Hf out r s'. unfold ViewComposite_draw. cbn [heap].
  rewrite H1, H2. cbn [mbind option_bind].
  destruct (children_of o) as [ks|].
  - apply forEach_agree; [exact Hframe|]. intros k out' r' s''. now apply Hf.
  - now intros [= <- <-].
Qed.

(** Two stores that hold the same objects at every reference of a set [P]
    closed under children give the same [draw] from any receiver in [P]. *)
Lemma draw_agree (P : loc -> Prop) h1 h2 :
  (forall l, P l -> h2 !! l = h1 !! l) ->
  (forall l o ks k, P l -> h1 !! l = Some o -> children_of o = Some ks ->
     k ∈ ks -> P k) ->
  forall n l out r s', P l ->
    invoke n l draw (mkState h1 out) = Some (r, s') ->
    invoke n l draw (mkState h2 out) = Some (r, mkState h2 (console s')).
Proof.
  intros Hsame Hclosed.
  induction n as [|n IH]; intros l out r s' Hl H; [discriminate|].
  rewrite invoke_S in *. cbn [heap] in *. rewrite (Hsame l Hl).
  destruct (h1 !! l) as [o|] eqn:Ho; [|now inversion H].
  assert (Hkids : forall ks k out r s', children_of o = Some ks -> k ∈ ks ->
            invoke n k draw (mkState h1 out) = Some (r, s') ->
            invoke n k draw (mkState h2 out) = Some (r, mkState h2 (console s'))).
  { intros ks k out0 r0 s0 Hks Hk. apply IH. exact (Hclosed l o ks k Hl Ho Hks Hk). }
  assert (Hvc : forall out r s',
            ViewComposite_draw (fun child => invoke n child draw) l (mkState h1 out)
              = Some (r, s') ->
            ViewComposite_draw (fun child => invoke n child draw) l (mkState h2 out)
              = Some (r, mkState h2 (console s'))).
  { apply (ViewComposite_draw_agree h1 h2 _ l o Ho); [now rewrite (Hsame l Hl)| |exact Hkids].
    intros k s0 r0 s0'. apply draw_heap. }
  destruct o as [|ks|ks|text].
  - now inversion H.
  - now apply Hvc.
  - change (resolve (class_of (DecoratorComposite ks)) draw)
      with (Some CDecoratorComposite) in *.
    cbn [body] in *. unfold DecoratorComposite_draw in *.
    apply seq_inv in H as [(v & s1 & [= _ <-] & H)|(e & s1 & H1 & _)]; [|discriminate].
    erewrite seq_Return by reflexivity. cbn [heap console] in *.
    apply seq_inv in H as [(w & s2 & H2 & H3)|(e & s2 & H2 & [= -> ->])].
    + rewrite (seq_Return _ _ _ _ _ (Hvc _ _ _ H2)). now inversion H3.
    + apply seq_Throw. now apply Hvc.
  - cbn in *. unfold PrintLeaf_draw in *. cbn [heap] in *.
    rewrite (Hsame l Hl), Ho in *. now inversion H.
Qed.

(** Changing the object at [c] changes nothing for the receivers that do not
    reach [c]: those of smaller rank. *)
Lemma draws_insert rank h c o' l o :
  ranked rank h = true -> rank l < rank c ->
  draws h l o -> draws (<[c := o']> h) l o.
Proof.
  intros Hr Hl [n H]. exists n. intros out.
  apply (draw_agree (fun k => rank k < rank c) h (<[c := o']> h)) with (l := l)
    (s' := mkState h (out ++ o)); [| |exact Hl|apply H].
  - intros k Hk. apply list_lookup_insert_ne. intros ->. lia.
  - intros k ok ks k' Hk Hok Hks Hk'.
    destruct (ranked_children rank h k ok ks k' Hr Hok Hks Hk'). lia.
Qed.

Lemma Forall2_draws_insert rank h c o' ks os :
  ranked rank h = true -> (forall k, k ∈ ks -> rank k < rank c) ->
  Forall2 (draws h) ks os -> Forall2 (draws (<[c := o']> h)) ks os.
Proof.
  intros Hr Hks H. induction H as [|k o ks os Hk _ IH]; constructor.
  - apply (draws_insert rank); auto. apply Hks. left.
  - apply IH. intros k' Hk'. apply Hks. now right.
Qed.

(** X2. Adding a child and drawing: in a hierarchy without cycles, after
    [c.add(child)] for a child that does not contain [c], [c.draw()] prints
    what it printed before the addition and then what the child prints. *)
Theorem add_then_draw rank h c ks os child oc n out :
  ranked rank h = true ->
  h !! c = Some (ViewComposite ks) ->
  rank child < rank c ->
  Forall2 (draws h) ks os ->
  draws h child oc ->
  exists h',
    invoke (S n) c (add child) (mkState h out)
      = Some (Return undefined, mkState h' out) /\
    draws h' c (concat os ++ oc).
Proof.
  intros Hr Hc Hchild Hos Hoc.
  exists (<[c := ViewComposite (ks ++ [child])]> h). split.
  - exact (add_appends n (mkState h out) c _ ks child Hc eq_refl).
  - set (h' := <[c := ViewComposite (ks ++ [child])]> h).
    assert (Hc' : h' !! c = Some (ViewComposite (ks ++ [child]))).
    { apply list_lookup_insert_eq. eapply lookup_lt_Some, Hc. }
    assert (Hall : Forall2 (draws h') (ks ++ [child]) (os ++ [oc])).
    { apply Forall2_app.
      - apply (Forall2_draws_insert rank); auto.
        intros k Hk. apply (ranked_children rank h c _ ks k Hr Hc eq_refl Hk).
      - repeat constructor. now apply (draws_insert rank). }
    destruct (children_draw_concat h' c _ _ _ Hc' eq_refl Hall) as [m Hm].
    exists (S m). intros out'. rewrite invoke_S. cbn [heap]. rewrite Hc'.
    cbn [class_of].
    change (resolve CViewComposite draw) with (Some CViewComposite). cbn [body].
    rewrite Hm, concat_app. cbn [concat]. now rewrite app_nil_r.
Qed.

(** Adding [js] to the composite of [hello] and [world]. *)
Lemma add_then_draw_witness :
  exists h',
    invoke 1 helloView (add js) (mkState usage_heap [])
      = Some (Return undefined, mkState h' []) /\
    draws h' helloView ["hello"; "world"; "js"].
Proof.
  refine (add_then_draw id usage_heap helloView [hello; world]
            [["hello"]; ["world"]] js ["js"] 0 [] eq_refl eq_refl _ _ _).
  - unfold id, js, helloView. lia.
  - repeat constructor; now apply PrintLeaf_draws.
  - now apply PrintLeaf_draws.
Defined.

(** A call that is known to return either returns that way or is cut short
    by the fuel. *)
Lemma draws_or_out_of_fuel h k o n out :
  draws h k o ->
  invoke n k draw (mkState h out) = None \/
  invoke n k draw (mkState h out) = Some (Return undefined, mkState h (out ++ o)).
Proof.
  intros [N H]. destruct (invoke n k draw (mkState h out)) as [x|] eqn:E; [right|now left].
  apply (invoke_mono n (Nat.max n N)) in E; [|lia].
  rewrite (invoke_mono N (Nat.max n N) _ _ _ _ ltac:(lia) (H out)) in E.
  now inversion E.
Qed.

Lemma forEach_then_none (f : loc -> M) h ks os last :
  Forall2 (fun k o => forall out,
             f k (mkState h out) = None \/
             f k (mkState h out) = Some (Return undefined, mkState h (out ++ o)))
          ks os ->
  (forall out, f last (mkState h out) = None) ->
  forall out, forEach f (ks ++ [last]) (mkState h out) = None.
Proof.
  intros H Hlast. induction H as [|k o ks os Hk _ IH]; intros out; cbn [app forEach].
  - unfold seq. now rewrite Hlast.
  - destruct (Hk out) as [E|E].
    + unfold seq. now rewrite E.
    + rewrite (seq_Return _ _ _ _ _ E). apply IH.
Qed.

(** X3. [add] makes no check for cycles: a composite can be added to
    itself, and from then on its [draw()] completes at no depth of nested
    calls (an engine ends it when the call stack is used up). *)
Theorem add_self_draw_never_completes rank h c ks os n out :
  ranked rank h = true ->
  h !! c = Some (ViewComposite ks) ->
  Forall2 (draws h) ks os ->
  exists h',
    invoke (S n) c (add c) (mkState h out)
      = Some (Return undefined, mkState h' out) /\
    forall fuel out', invoke fuel c draw (mkState h' out') = None.
Proof.
  intros Hr Hc Hos.
  exists (<[c := ViewComposite (ks ++ [c])]> h). split.
  - exact (add_appends n (mkState h out) c _ ks c Hc eq_refl).
  - set (h' := <[c := ViewComposite (ks ++ [c])]> h).
    assert (Hc' : h' !! c = Some (ViewComposite (ks ++ [c]))).
    { apply list_lookup_insert_eq. eapply lookup_lt_Some, Hc. }
    assert (Hos' : Forall2 (draws h') ks os).
    { apply (Forall2_draws_insert rank); auto.
      intros k Hk. apply (ranked_children rank h c _ ks k Hr Hc eq_refl Hk). }
    induction fuel as [|fuel IH]; intros out'; [reflexivity|].
    rewrite invoke_S. cbn [heap]. rewrite Hc'. cbn [class_of].
    change (resolve CViewComposite draw) with (Some CViewComposite). cbn [body].
    unfold ViewComposite_draw. cbn [heap]. rewrite Hc'. cbn [mbind option_bind children_of].
    apply (forEach_then_none _ h' ks os c); [|exact IH].
    eapply Forall2_impl; [exact Hos'|]. cbn beta.
    intros k o Hk out0. now apply draws_or_out_of_fuel.
Qed.

Lemma add_self_draw_never_completes_witness :
  exists h',
    invoke 1 helloView (add helloView) (mkState usage_heap [])
      = Some (Return undefined, mkState h' []) /\
    forall fuel out', invoke fuel helloView draw (mkState h' out') = None.
Proof.
  refine (add_self_draw_never_completes id usage_heap helloView [hello; world]
            [["hello"]; ["world"]] 0 [] eq_refl eq_refl _).
  repeat constructor; now apply PrintLeaf_draws.
Defined.

(** X4. Allocation is invisible to the objects that exist: in a store
    without cycles or dangling children, [new] leaves every [draw] of an
    existing object as it was, output and completion alike. *)
Theorem new_keeps_draw rank h l n out r s' o' :
  ranked rank h = true ->
  l < length h ->
  invoke n l draw (mkState h out) = Some (r, s') ->
  invoke n l draw (mkState (h ++ [o']) out)
    = Some (r, mkState (h ++ [o']) (console s')).
Proof.
  intros Hr Hl H.
  apply (draw_agree (fun k => k < length h) h (h ++ [o'])) with (l := l);
    [| |exact Hl|exact H].
  - intros k Hk. now apply lookup_app_l.
  - intros k ok ks k' Hk Hok Hks Hk'.
    apply (ranked_children rank h k ok ks k' Hr Hok Hks Hk').
Qed.

Lemma new_keeps_draw_witness :
  invoke 2 helloView draw (mkState (usage_heap ++ [PrintLeaf "new"]) [])
  = Some (Return undefined,
          mkState (usage_heap ++ [PrintLeaf "new"]) ["hello"; "world"]).
Proof.
  exact (new_keeps_draw id usage_heap helloView 2 [] _ _ (PrintLeaf "new")
           eq_refl ltac:(unfold helloView; cbn; lia) eq_refl).
Defined.

(** *** A child that throws *)

Lemma forEach_throw (f : loc -> M) h ks1 k ks2 os e ok :
  Forall2 (fun k o => forall out,
             f k (mkState h out) = Some (Return undefined, mkState h (out ++ o)))
          ks1 os ->
  (forall out, f k (mkState h out) = Some (Throw e, mkState h (out ++ ok))) ->
  forall out,
    forEach f (ks1 ++ k :: ks2) (mkState h out)
    = Some (Throw e, mkState h (out ++ concat os ++ ok)).
Proof.
  intros H Hk. induction H as [|k1 o1 ks1 os H1 _ IH]; intros out;
    cbn [app forEach concat].
  - apply seq_Throw, Hk.
  - rewrite (seq_Return _ _ _ _ _ (H1 out)), IH. now rewrite <- !app_assoc.
Qed.

Lemma children_draw_throw h this o ks1 k ks2 os e ok :
  h !! this = Some o -> children_of o = Some (ks1 ++ k :: ks2) ->
  Forall2 (draws h) ks1 os -> throws h k e ok ->
  exists n, forall out,
    ViewComposite_draw (fun child => invoke n child draw) this (mkState h out)
    = Some (Throw e, mkState h (out ++ concat os ++ ok)).
Proof.
  intros Hthis Hks Hall [n2 Hk]. destruct (draws_common_fuel _ _ _ Hall) as [n1 Hn].
  exists (Nat.max n1 n2). intros out. unfold ViewComposite_draw. cbn [heap].
  rewrite Hthis. cbn [mbind option_bind]. rewrite Hks.
  apply forEach_throw.
  - eapply Forall2_impl; [exact Hn|]. cbn beta.
    intros k' o' H' out'. apply (invoke_mono n1); [lia|apply H'].
  - intros out'. apply (invoke_mono n2); [lia|apply Hk].
Qed.

(** X5. A child whose [draw()] throws ends [ViewComposite.draw()]: the
    composite throws the same error, after the output of the children
    before it and what the throwing child printed itself; the children
    after it are not drawn. *)
Theorem ViewComposite_draw_child_throws h c ks1 k ks2 os e ok :
  h !! c = Some (ViewComposite (ks1 ++ k :: ks2)) ->
  Forall2 (draws h) ks1 os ->
  throws h k e ok ->
  throws h c e (concat os ++ ok).
Proof.
  intros Hc Hall Hk.
  destruct (children_draw_throw h c _ ks1 k ks2 os e ok Hc eq_refl Hall Hk) as [n Hn].
  exists (S n). intros out. rewrite invoke_S. cbn [heap]. rewrite Hc. apply Hn.
Qed.

Lemma ViewComposite_draw_child_throws_witness :
  throws [ViewComponent; PrintLeaf "early"; PrintLeaf "late"; ViewComposite [1; 0; 2]]
         3 (Error "Not implemented") ["early"].
Proof.
  refine (ViewComposite_draw_child_throws
            [ViewComponent; PrintLeaf "early"; PrintLeaf "late"; ViewComposite [1; 0; 2]]
            3 [1] 0 [2] [["early"]] (Error "Not implemented") [] eq_refl _ _).
  - repeat constructor. now apply PrintLeaf_draws.
  - exists 1. intros out. cbn. now rewrite app_nil_r.
Defined.

(** X6. [DecoratorComposite.draw()] has no [finally]: when a child throws,
    "NestedStart" and the output up to the throw are printed, "NestedEnd"
    is not, and the error goes on to the caller. *)
Theorem DecoratorComposite_draw_child_throws h c ks1 k ks2 os e ok :
  h !! c = Some (DecoratorComposite (ks1 ++ k :: ks2)) ->
  Forall2 (draws h) ks1 os ->
  throws h k e ok ->
  throws h c e (["NestedStart"] ++ concat os ++ ok).
Proof.
  intros Hc Hall Hk.
  destruct (children_draw_throw h c _ ks1 k ks2 os e ok Hc eq_refl Hall Hk) as [n Hn].
  exists (S n). intros out. rewrite invoke_S. cbn [heap]. rewrite Hc. cbn [class_of].
  change (resolve CDecoratorComposite draw) with (Some CDecoratorComposite).
  cbn [body]. unfold DecoratorComposite_draw.
  erewrite seq_Return by reflexivity. cbn [heap console].
  erewrite seq_Throw by apply Hn. now rewrite <- !app_assoc.
Qed.

Lemma DecoratorComposite_draw_child_throws_witness :
  throws [ViewComponent; PrintLeaf "early"; PrintLeaf "late"; DecoratorComposite [1; 0; 2]]
         3 (Error "Not implemented") ["NestedStart"; "early"].
Proof.
  refine (DecoratorComposite_draw_child_throws
            [ViewComponent; PrintLeaf "early"; PrintLeaf "late"; DecoratorComposite [1; 0; 2]]
            3 [1] 0 [2] [["early"]] (Error "Not implemented") [] eq_refl _ _).
  - repeat constructor. now apply PrintLeaf_draws.
  - exists 1. intros out. cbn. now rewrite app_nil_r.
Defined.

(** *** [add] and iteration *)

Lemma spread_children fuel s c ks :
  heap s !! c ≫= children_of = Some ks -> length ks < fuel ->
  spread fuel c s = Some (inl ks, s).
Proof.
  intros Hks Hfuel. destruct fuel as [|fuel]; [lia|]. unfold spread.
  rewrite invoke_S. destruct (heap s !! c) as [o|] eqn:Ho; [|discriminate].
  cbn in Hks.
  assert (Hres : resolve (class_of o) Symbol_iterator = Some CViewComposite)
    by (destruct o; try discriminate; reflexivity).
  rewrite Hres. cbn [body]. unfold ViewComposite_iterator.
  rewrite Ho. cbn [mbind option_bind]. rewrite Hks. cbn [ret].
  rewrite (drain_drop s c ks (S fuel) 0); [reflexivity| |lia].
  rewrite Ho. exact Hks.
Qed.

Lemma children_after_add s c o ks child :
  heap s !! c = Some o -> children_of o = Some ks ->
  <[c := with_children o (ks ++ [child])]> (heap s) !! c ≫= children_of
  = Some (ks ++ [child]).
Proof.
  intros Ho Hks. rewrite list_lookup_insert_eq by (eapply lookup_lt_Some, Ho).
  destruct o; try discriminate; reflexivity.
Qed.

(** X7. What [add] puts in, iteration gets out: after [c.add(child)] the
    composite yields its former children followed by [child] (also when
    [child] was a child already: there is no check for duplicates). The
    call prints nothing and touches no other object. *)
Theorem add_then_iterate fuel s c ks child :
  heap s !! c ≫= children_of = Some ks ->
  S (length ks) < fuel ->
  exists s',
    invoke fuel c (add child) s = Some (Return undefined, s') /\
    spread fuel c s' = Some (inl (ks ++ [child]), s') /\
    console s' = console s /\
    length (heap s') = length (heap s) /\
    forall l, l <> c -> heap s' !! l = heap s !! l.
Proof.
  intros Hks Hfuel. destruct (heap s !! c) as [o|] eqn:Ho; [|discriminate].
  cbn in Hks. destruct fuel as [|fuel]; [lia|].
  eexists. split; [exact (add_appends fuel s c o ks child Ho Hks)|].
  split; [|split; [reflexivity|split]].
  - apply spread_children.
    + cbn [heap]. now apply children_after_add.
    + rewrite length_app. cbn. lia.
  - cbn [heap]. apply length_insert.
  - intros l Hl. cbn [heap]. now apply list_lookup_insert_ne.
Qed.

(** [world] is added to [helloView] a second time. *)
Lemma add_then_iterate_witness :
  exists s',
    invoke 4 helloView (add world) (mkState usage_heap []) = Some (Return undefined, s') /\
    spread 4 helloView s' = Some (inl [hello; world; world], s') /\
    console s' = [] /\
    length (heap s') = 6 /\
    forall l, l <> helloView -> heap s' !! l = usage_heap !! l.
Proof.
  exact (add_then_iterate 4 (mkState usage_heap []) helloView [hello; world] world
           eq_refl ltac:(cbn; lia)).
Defined.

Lemma Symbol_iterator_returns n s c ks :
  heap s !! c ≫= children_of = Some ks ->
  invoke (S n) c Symbol_iterator s = Some (Return (VIterator (mkIter (Some c) 0)), s).
Proof.
  intros Hks. rewrite invoke_S.
  destruct (heap s !! c) as [o|] eqn:Ho; [|discriminate]. cbn in Hks.
  assert (Hres : resolve (class_of o) Symbol_iterator = Some CViewComposite)
    by (destruct o; try discriminate; reflexivity).
  rewrite Hres. cbn [body]. unfold ViewComposite_iterator.
  rewrite Ho. cbn [mbind option_bind]. now rewrite Hks.
Qed.

(** X8. The iterator is the array's own and reads it when stepped: an
    iterator obtained before [c.add(child)] and stepped after it yields the
    added child too. *)
Theorem iterator_sees_later_add n s c ks child :
  heap s !! c ≫= children_of = Some ks ->
  exists it s',
    invoke (S n) c Symbol_iterator s = Some (Return (VIterator it), s) /\
    invoke (S n) c (add child) s = Some (Return undefined, s') /\
    drain (length ks + 2) it s' = Some (ks ++ [child]).
Proof.
  intros Hks. exists (mkIter (Some c) 0).
  pose proof (Symbol_iterator_returns n s c ks Hks) as Hit.
  destruct (heap s !! c) as [o|] eqn:Ho; [|discriminate]. cbn in Hks.
  eexists. split; [exact Hit|].
  split; [exact (add_appends n s c o ks child Ho Hks)|].
  rewrite (drain_drop _ c (ks ++ [child])); [reflexivity| |].
  - cbn [heap]. now apply children_after_add.
  - rewrite length_app. cbn. lia.
Qed.

Lemma iterator_sees_later_add_witness :
  exists it s',
    invoke 1 helloView Symbol_iterator (mkState usage_heap [])
      = Some (Return (VIterator it), mkState usage_heap []) /\
    invoke 1 helloView (add js) (mkState usage_heap []) = Some (Return undefined, s') /\
    drain 4 it s' = Some [hello; world; js].
Proof.
  exact (iterator_sees_later_add 0 (mkState usage_heap []) helloView [hello; world] js
           eq_refl).
Defined.

Lemma for_of_loop_draws (f : loc -> M) h c ks os :
  h !! c ≫= children_of = Some ks ->
  Forall2 (fun k o => forall out,
             f k (mkState h out) = Some (Return undefined, mkState h (out ++ o)))
          ks os ->
  forall steps i out, length ks - i < steps ->
    for_of_loop steps (mkIter (Some c) i) f (mkState h out)
    = Some (Return undefined, mkState h (out ++ concat (drop i os))).
Proof.
  intros Hks Hall. induction steps as [|steps IH]; intros i out Hi; [lia|].
  cbn [for_of_loop]. destruct (ks !! i) as [k|] eqn:Hk.
  - rewrite (next_lookup (mkState h out) c ks i k Hks Hk).
    destruct (Forall2_lookup_l _ _ _ _ _ Hall Hk) as (o & Ho & Hf).
    pose proof (lookup_lt_Some _ _ _ Hk).
    rewrite (seq_Return _ _ _ _ _ (Hf out)), IH by lia.
    rewrite (drop_S os o i Ho). cbn [concat]. now rewrite app_assoc.
  - apply lookup_ge_None_1 in Hk.
    rewrite (proj1 (next_done (mkState h out) c ks i Hks Hk)).
    rewrite drop_ge by (rewrite <- (Forall2_length _ _ _ Hall); lia).
    cbn. unfold ret. now rewrite app_nil_r.
Qed.

(** X9. Traversal from outside: the loop [for (const child of c)
    child.draw()] of the usage script prints what the children of [c]
    print, in their order. For a [ViewComposite] this is what [c.draw()]
    prints; for a [DecoratorComposite] it is [c.draw()] without the two
    marker lines. *)
Theorem for_of_draws_children h c ks os :
  h !! c ≫= children_of = Some ks ->
  Forall2 (draws h) ks os ->
  exists fuel, forall out,
    for_of fuel c (fun child => invoke fuel child draw) (mkState h out)
    = Some (Return undefined, mkState h (out ++ concat os)).
Proof.
  intros Hks Hall. destruct (draws_common_fuel _ _ _ Hall) as [n Hn].
  exists (S (Nat.max n (length ks))). intros out. unfold for_of.
  rewrite (Symbol_iterator_returns _ (mkState h out) c ks Hks).
  rewrite (for_of_loop_draws _ h c ks os Hks); [reflexivity| |lia].
  eapply Forall2_impl; [exact Hn|]. cbn beta.
  intros k o H out'. apply (invoke_mono n); [lia|apply H].
Qed.

(** The last loop of the usage script, over [nestedView]. *)
Lemma for_of_draws_children_witness :
  exists fuel, forall out,
    for_of fuel nestedView (fun child => invoke fuel child draw) (mkState usage_heap out)
    = Some (Return undefined, mkState usage_heap (out ++ ["hello"; "world"; "world"; "js"])).
Proof.
  refine (for_of_draws_children usage_heap nestedView [helloView; jsView]
            [["hello"; "world"]; ["world"; "js"]] eq_refl _).
  repeat constructor; exists 2; intros out; cbn; now rewrite <- app_assoc.
Defined.

End ViewSpec.

(* ===================================================================== *)
(** * Properties of products and collections *)
(* ===================================================================== *)

Module SimpleSpec.
Import Simple.

Example usage_heap_built :
  usage_heap =
  [ Product "Laptop" 1500%Z; Product "Mouse" 25%Z; Product "Keyboard" 100%Z;
    Product "HDMI cable" 10%Z; Collection "Electronics" [0; 1; 2; 3];
    Product "Bag" 50%Z; Product "Mouse pad" 5%Z; Collection "Textile" [5; 6];
    Collection "Purchase" [electronics; textile] ]
  /\ purchase = 8.
Proof. split; reflexivity. Qed.

Example usage_total : price 0%Z Z.add 3 usage_heap purchase = Some 1690%Z.
Proof. reflexivity. Qed.

Section Price.
Context {num : Type} (zero : num) (plus : num -> num -> num).

Local Abbreviation price := (price zero plus).
Local Abbreviation has_price := (has_price zero plus).
Local Abbreviation sum_prices := (sum_prices plus).

(** ** The loop *)

Lemma sum_prices_mono (f g : loc -> option num) set acc v :
  (forall m w, f m = Some w -> g m = Some w) ->
  sum_prices f set acc = Some v -> sum_prices g set acc = Some v.
Proof.
  intros Hfg. revert acc. induction set as [|m set IH]; intros acc H; [exact H|].
  cbn [Simple.sum_prices] in *. destruct (f m) as [w|] eqn:E; [|discriminate].
  rewrite (Hfg _ _ E). auto.
Qed.

(** The loop adds the members' prices to the accumulator from left to
    right. *)
Lemma sum_prices_fold (get : loc -> option num) set vs acc :
  Forall2 (fun m v => get m = Some v) set vs ->
  sum_prices get set acc = Some (fold_left plus vs acc).
Proof.
  intros H. revert acc. induction H as [|m v set vs Hm _ IH]; intros acc.
  - reflexivity.
  - cbn [Simple.sum_prices fold_left]. rewrite Hm. apply IH.
Qed.

(** ** Fuel *)

Lemma price_mono n n' h l v :
  n <= n' -> price n h l = Some v -> price n' h l = Some v.
Proof.
  revert n' l v. induction n as [|n IH]; intros n' l v Hle H; [discriminate|].
  destruct n' as [|n']; [lia|]. cbn [Simple.price] in *.
  destruct (h !! l) as [[name p|name set]|]; [exact H| |exact H].
  revert H. apply sum_prices_mono. intros m w. apply IH. lia.
Qed.

(** Reading [price] gives one value only. *)
Lemma has_price_det h l v v' : has_price h l v -> has_price h l v' -> v = v'.
Proof.
  intros [n H] [n' H'].
  apply (price_mono n (Nat.max n n')) in H; [|lia].
  apply (price_mono n' (Nat.max n n')) in H'; [|lia]. congruence.
Qed.

Lemma has_price_common_fuel h set vs :
  Forall2 (has_price h) set vs ->
  exists n, Forall2 (fun m v => price n h m = Some v) set vs.
Proof.
  induction 1 as [|m v set vs [n1 Hm] _ [n2 IH]].
  - exists 0. constructor.
  - exists (Nat.max n1 n2). constructor.
    + apply (price_mono n1); [lia|exact Hm].
    + eapply Forall2_impl; [exact IH|]. cbn beta.
      intros m' v' H'. apply (price_mono n2); [lia|exact H'].
Qed.

(** ** Collections without cycles *)

Lemma ranked_members rank (h : list (item num)) l name set m :
  ranked rank h = true -> h !! l = Some (Collection name set) ->
  m ∈ set -> rank m < rank l /\ m < length h.
Proof.
  unfold ranked. rewrite forallb_forall. intros Hall Hl Hm.
  specialize (Hall (l, Collection name set)). cbn beta iota in Hall.
  rewrite forallb_forall in Hall.
  assert (Hin : In (l, Collection name set) (imap pair h)).
  { apply list_elem_of_In, list_elem_of_lookup. exists l.
    rewrite list_lookup_imap, Hl. reflexivity. }
  specialize (Hall Hin m (proj1 (list_elem_of_In _ _) Hm)).
  apply andb_true_iff in Hall as [H1 H2].
  apply Nat.ltb_lt in H1, H2. auto.
Qed.

Lemma sum_prices_total (fam : nat -> loc -> option num) N set :
  (forall m, m ∈ set -> exists v, forall n, N <= n -> fam n m = Some v) ->
  forall acc, exists v, forall n, N <= n -> sum_prices (fam n) set acc = Some v.
Proof.
  induction set as [|m set IH]; intros Hset acc.
  - exists acc. reflexivity.
  - destruct (Hset m) as [w Hw]; [left|].
    destruct (IH (fun m' Hm' => Hset m' (list_elem_of_further _ _ _ Hm'))
                 (plus acc w)) as [v Hv].
    exists v. intros n Hn. cbn [Simple.sum_prices]. rewrite (Hw n Hn). auto.
Qed.

(** Without cycles every item has a price, found as soon as the fuel
    exceeds the rank of the item. *)
Lemma price_total rank h :
  ranked rank h = true ->
  forall l, l < length h ->
  exists v, forall n, rank l < n -> price n h l = Some v.
Proof.
  intros Hr.
  enough (H : forall b l, rank l < b -> l < length h ->
            exists v, forall n, rank l < n -> price n h l = Some v).
  { intros l. apply (H (S (rank l))). lia. }
  induction b as [|b IH]; intros l Hb Hl; [lia|].
  destruct (lookup_lt_is_Some_2 h l Hl) as [[name p|name set] Ho].
  - exists p. intros [|n] Hn; [lia|]. cbn [Simple.price]. now rewrite Ho.
  - destruct (sum_prices_total (fun n => price n h) (rank l) set) with (acc := zero)
      as [v Hv].
    { intros m Hm.
      destruct (ranked_members rank h l name set m Hr Ho Hm) as [Hlt Hin].
      destruct (IH m ltac:(lia) Hin) as [w Hw].
      exists w. intros n Hn. apply Hw. lia. }
    exists v. intros [|n] Hn; [lia|]. cbn [Simple.price]. rewrite Ho.
    apply Hv. lia.
Qed.

(** ** The getter *)

(** C2. The price of a product is its stored price. The price of a
    collection is the sum of the prices of its members, added from [0] in
    the order of the set; the members may be collections themselves, to any
    depth. Nothing is stored: the value is that of the store at hand. *)
Theorem price_spec h l o :
  h !! l = Some o ->
  match o with
  | Product _ productPrice => has_price h l productPrice
  | Collection _ set =>
      forall vs, Forall2 (has_price h) set vs ->
                 has_price h l (fold_left plus vs zero)
  end.
Proof.
  intros Hl. destruct o as [name p|name set].
  - exists 1. cbn [Simple.price]. now rewrite Hl.
  - intros vs Hvs. destruct (has_price_common_fuel h set vs Hvs) as [n Hn].
    exists (S n). cbn [Simple.price]. rewrite Hl.
    now apply sum_prices_fold.
Qed.

(** ** Membership *)

Lemma Set_add_member s x : x ∈ s -> Set_add s x = s.
Proof. intros H. unfold Set_add, Set_has. now rewrite bool_decide_eq_true_2. Qed.

Lemma Set_add_fresh s x : x ∉ s -> Set_add s x = s ++ [x].
Proof. intros H. unfold Set_add, Set_has. now rewrite bool_decide_eq_false_2. Qed.

Lemma elem_of_fold_Set_add x xs acc :
  x ∈ fold_left Set_add xs acc <-> x ∈ acc \/ x ∈ xs.
Proof.
  revert acc. induction xs as [|y xs IH]; intros acc; cbn [fold_left].
  - rewrite elem_of_nil. tauto.
  - rewrite IH, elem_of_cons. destruct (decide (y ∈ acc)) as [Hy|Hy].
    + rewrite (Set_add_member _ _ Hy). split; [tauto|].
      intros [H|[->|H]]; auto.
    + rewrite (Set_add_fresh _ _ Hy), elem_of_app, list_elem_of_singleton. tauto.
Qed.

Lemma NoDup_fold_Set_add xs acc : NoDup acc -> NoDup (fold_left Set_add xs acc).
Proof.
  revert acc. induction xs as [|y xs IH]; intros acc Hacc; [exact Hacc|].
  cbn [fold_left]. apply IH. destruct (decide (y ∈ acc)) as [Hy|Hy].
  - now rewrite (Set_add_member _ _ Hy).
  - rewrite (Set_add_fresh _ _ Hy). apply NoDup_app. repeat split; auto.
    + intros x Hx Hx'. apply list_elem_of_singleton in Hx'. now subst.
    + apply NoDup_singleton.
Qed.

(** A set holds the elements it was built from, each once. *)
Lemma new_Set_spec xs : NoDup (new_Set xs) /\ forall x, x ∈ new_Set xs <-> x ∈ xs.
Proof.
  split.
  - apply NoDup_fold_Set_add, NoDup_nil_2.
  - intros x. unfold new_Set. rewrite elem_of_fold_Set_add, elem_of_nil. tauto.
Qed.

Lemma new_Set_twice p : new_Set [p; p] = [p].
Proof.
  unfold new_Set. cbn [fold_left].
  rewrite (Set_add_fresh [] p) by apply not_elem_of_nil.
  apply Set_add_member. cbn. apply list_elem_of_here.
Qed.

Lemma new_Set_distinct p q : p <> q -> new_Set [p; q] = [p; q].
Proof.
  intros Hpq. unfold new_Set. cbn [fold_left].
  rewrite (Set_add_fresh [] p) by apply not_elem_of_nil.
  apply Set_add_fresh. cbn. intros H.
  apply list_elem_of_singleton in H. congruence.
Qed.

Lemma new_Set_empty : new_Set [] = [].
Proof. reflexivity. Qed.

(** Allocation leaves the prices of the objects that exist already. *)
Lemma price_extend n h h' l v :
  price n h l = Some v -> price n (h ++ h') l = Some v.
Proof.
  revert l v. induction n as [|n IH]; intros l v H; [discriminate|].
  cbn [Simple.price] in *. destruct (h !! l) as [o|] eqn:Hl; [|discriminate].
  rewrite (lookup_app_l_Some _ _ _ _ Hl). destruct o as [name p|name set]; [exact H|].
  revert H. apply sum_prices_mono. intros m w. apply IH.
Qed.

(** The price of a freshly constructed collection, from the prices that its
    distinct arguments had before. *)
Lemma new_Collection_price name products h vs :
  Forall2 (has_price h) (new_Set products) vs ->
  has_price (snd (new_Collection name products h))
            (fst (new_Collection name products h)) (fold_left plus vs zero).
Proof.
  intros Hvs. destruct (has_price_common_fuel h _ vs Hvs) as [n Hn].
  exists (S n). unfold new_Collection. cbn [fst snd Simple.price].
  rewrite list_lookup_middle by reflexivity. apply sum_prices_fold.
  eapply Forall2_impl; [exact Hn|]. cbn beta. intros m w. apply price_extend.
Qed.

(** C6. Membership is by reference, whatever the arguments of the
    constructor: the set of [new Collection(name, ...products)] holds each
    reference that occurs among the arguments, however often it occurs,
    exactly once, and the price adds one price for each member of the set.
    So an item given twice is counted once, and two products with the same
    name and price, being two references, are counted both. *)
Theorem Collection_dedup_by_identity h name products :
  exists set,
    snd (new_Collection name products h) !! fst (new_Collection name products h)
      = Some (Collection name set) /\
    NoDup set /\
    (forall x, x ∈ set <-> x ∈ products) /\
    forall vs, Forall2 (has_price h) set vs ->
      has_price (snd (new_Collection name products h))
                (fst (new_Collection name products h)) (fold_left plus vs zero).
Proof.
  exists (new_Set products). split; [|split; [|split]].
  - unfold new_Collection. cbn [fst snd]. now apply list_lookup_middle.
  - apply new_Set_spec.
  - apply new_Set_spec.
  - intros vs. apply new_Collection_price.
Qed.

(** C9. A collection constructed without members has price [0]. *)
Theorem empty_Collection_price name h n :
  price (S n) (snd (new_Collection name [] h)) (fst (new_Collection name [] h))
  = Some zero.
Proof.
  unfold new_Collection. cbn [fst snd Simple.price].
  now rewrite list_lookup_middle.
Qed.

(* --------------------------------------------------------------------- *)
(** ** Further properties of products and collections *)
(* --------------------------------------------------------------------- *)

(** *** The set of a collection *)

Lemma fold_Set_add_cons x xs A B :
  A = filter (fun y => y <> x) B ->
  fold_left Set_add xs (x :: A) = x :: filter (fun y => y <> x) (fold_left Set_add xs B).
Proof.
  revert A B. induction xs as [|y xs IH]; intros A B HA; cbn [fold_left].
  - now rewrite HA.
  - destruct (decide (y = x)) as [->|Hyx].
    + rewrite (Set_add_member (x :: A) x) by left. apply IH.
      destruct (decide (x ∈ B)) as [HB|HB].
      * now rewrite (Set_add_member _ _ HB).
      * rewrite (Set_add_fresh _ _ HB), filter_app, <- HA.
        rewrite filter_cons_False by (intros H; now apply H). cbn.
        now rewrite app_nil_r.
    + assert (Hiff : y ∈ x :: A <-> y ∈ B).
      { rewrite elem_of_cons, HA, list_elem_of_filter. tauto. }
      destruct (decide (y ∈ B)) as [HB|HB].
      * rewrite (Set_add_member _ _ HB), (Set_add_member (x :: A) y) by tauto.
        now apply IH.
      * rewrite (Set_add_fresh _ _ HB), (Set_add_fresh (x :: A) y) by tauto.
        apply (IH (A ++ [y]) (B ++ [y])).
        rewrite filter_app, <- HA. now rewrite filter_cons_True by exact Hyx.
Qed.

(** X10. The set of [new Collection(name, ...products)] holds the arguments
    in the order of their first occurrence: the first argument comes first,
    and its later occurrences are dropped from what the remaining arguments
    give. *)
Theorem new_Set_first_occurrences x xs :
  new_Set (x :: xs) = x :: filter (fun y => y <> x) (new_Set xs).
Proof.
  unfold new_Set. cbn [fold_left].
  rewrite (Set_add_fresh [] x) by apply not_elem_of_nil.
  now apply fold_Set_add_cons.
Qed.

(** *** Stores that the constructors build *)

Lemma ranked_intro rank (h : list (item num)) :
  (forall l name set m, h !! l = Some (Collection name set) -> m ∈ set ->
     rank m < rank l /\ m < length h) ->
  ranked rank h = true.
Proof.
  intros H. unfold ranked. apply forallb_forall. intros [l o] Hin.
  apply list_elem_of_In, list_elem_of_lookup in Hin as [i Hi].
  rewrite list_lookup_imap in Hi. destruct (h !! i) as [o'|] eqn:Ho; [|discriminate].
  cbn in Hi. injection Hi as <- <-. destruct o' as [name p|name set]; [reflexivity|].
  apply forallb_forall. intros m Hm. apply list_elem_of_In in Hm.
  destruct (H i name set m Ho Hm) as [H1 H2].
  apply andb_true_iff. split; now apply Nat.ltb_lt.
Qed.

Lemma ranked_snoc (h : list (item num)) o :
  ranked id h = true ->
  (forall name set m, o = Collection name set -> m ∈ set -> m < length h) ->
  ranked id (h ++ [o]) = true.
Proof.
  intros Hr Ho. apply ranked_intro. intros l name set m Hl Hm.
  rewrite length_app. cbn [length]. unfold id.
  destruct (decide (l < length h)) as [Hlt|Hge].
  - rewrite lookup_app_l in Hl by exact Hlt.
    destruct (ranked_members id h l name set m Hr Hl Hm). unfold id in *. lia.
  - rewrite lookup_app_r in Hl by lia.
    destruct (l - length h) as [|d] eqn:Hd; [|now destruct d].
    injection Hl as ->. pose proof (Ho name set m eq_refl Hm). lia.
Qed.

(** X11. Stores that the constructors build have no cycles: a constructor
    can only be given objects that exist already, so a store ranked by
    allocation order stays so after [new Product] and after [new
    Collection], and the price of the new collection is found at once. *)
Theorem constructors_keep_ranked (h : list (item num)) name p products :
  ranked id h = true ->
  Forall (fun m => m < length h) products ->
  ranked id (snd (new_Product name p h)) = true /\
  ranked id (snd (new_Collection name products h)) = true /\
  exists v, forall n, length h < n ->
    price n (snd (new_Collection name products h))
            (fst (new_Collection name products h)) = Some v.
Proof.
  intros Hr Hps.
  assert (Hc : ranked id (snd (new_Collection name products h)) = true).
  { apply ranked_snoc; [exact Hr|]. intros name' set m [= _ <-] Hm.
    apply (proj1 (proj2 (new_Set_spec products) m)) in Hm.
    rewrite Forall_forall in Hps. now apply Hps. }
  split; [|split; [exact Hc|]].
  - apply ranked_snoc; [exact Hr|]. intros name' set m [=].
  - apply (price_total id _ Hc). cbn. rewrite length_app. cbn. lia.
Qed.

(** *** Exact totals *)

Section Exact.
(** Some of the numbers are integers, with a value, and [+] adds two of
    them exactly as long as their absolute values total at most [B]. For
    the numbers of the host this holds with [B] = 2^53. *)
Variable val : num -> Z.
Variable isint : num -> Prop.
Variable B : Z.
Hypothesis isint_zero : isint zero.
Hypothesis val_zero : val zero = 0%Z.
Hypothesis plus_exact : forall a b, isint a -> isint b ->
  (Z.abs (val a) + Z.abs (val b) <= B)%Z ->
  isint (plus a b) /\ val (plus a b) = (val a + val b)%Z.

Local Abbreviation size vs := (total (List.map (fun v => Z.abs (val v)) vs)).
Local Abbreviation value vs := (total (List.map val vs)).

Lemma total_cons z zs : total (z :: zs) = (z + total zs)%Z.
Proof. reflexivity. Qed.


Lemma total_Permutation zs zs' : zs ≡ₚ zs' -> total zs = total zs'.
Proof. induction 1; rewrite ?total_cons; lia. Qed.

Lemma size_nonneg vs : (0 <= size vs)%Z.
Proof.
  induction vs as [|v vs IH]; [reflexivity|].
  cbn [List.map]. rewrite total_cons. lia.
Qed.




(** A loop of exact additions. *)
Lemma fold_plus_exact vs acc :
  isint acc -> Forall isint vs ->
  (Z.abs (val acc) + size vs <= B)%Z ->
  isint (fold_left plus vs acc) /\
  val (fold_left plus vs acc) = (val acc + value vs)%Z.
Proof.
  revert acc. induction vs as [|v vs IH]; intros acc Hacc Hvs Hle.
  - cbn. split; [exact Hacc|lia].
  - apply Forall_cons in Hvs as [Hv Hvs].
    cbn [List.map] in *. rewrite total_cons in *.
    pose proof (size_nonneg vs).
    destruct (plus_exact acc v Hacc Hv ltac:(lia)) as [Hi Hval].
    cbn [fold_left]. destruct (IH (plus acc v) Hi Hvs ltac:(lia)) as [Hi' Hval'].
    split; [exact Hi'|]. lia.
Qed.



(** *** The order of the arguments *)

Lemma Forall2_Permutation_l {A C} (P : A -> C -> Prop) xs ys vs :
  xs ≡ₚ ys -> Forall2 P xs vs ->
  exists vs', vs ≡ₚ vs' /\ Forall2 P ys vs'.
Proof.
  intros Hp. revert vs. induction Hp as [|x xs ys _ IH|x y xs|xs ys zs _ IH1 _ IH2];
    intros vs H.
  - inversion H. exists []. split; constructor.
  - inversion H as [|? v ? vs0 Hx Hxs]; subst.
    destruct (IH _ Hxs) as (vs' & Hvs & H'). exists (v :: vs'). split; now constructor.
  - inversion H as [|? v ? vs0 Hy Hrest]; subst.
    inversion Hrest as [|? w ? vs1 Hx Hxs]; subst.
    exists (w :: v :: vs1). split; [apply perm_swap|now repeat constructor].
  - destruct (IH1 _ H) as (vs1 & Hp1 & H1). destruct (IH2 _ H1) as (vs2 & Hp2 & H2).
    exists vs2. split; [now transitivity vs1|exact H2].
Qed.

(** X13. Where [+] is exact on integers up to a bound (2^53 for the
    numbers of the host): two collections constructed from the same items,
    in any order and with or without repeated arguments, whose distinct
    members have integer prices with absolute values totalling at most the
    bound, have the same price, the exact total of the members' prices. *)
Theorem Collection_price_any_order h name xs ys vs :
  (forall x, x ∈ xs <-> x ∈ ys) ->
  Forall2 (has_price h) (new_Set xs) vs ->
  Forall isint vs ->
  (size vs <= B)%Z ->
  exists v v',
    has_price (snd (new_Collection name xs h)) (fst (new_Collection name xs h)) v /\
    has_price (snd (new_Collection name ys h)) (fst (new_Collection name ys h)) v' /\
    isint v /\ isint v' /\ val v = value vs /\ val v' = value vs.
Proof.
  intros Hsame Hvs Hint Hle.
  assert (Hp : new_Set xs ≡ₚ new_Set ys).
  { apply NoDup_Permutation; try apply new_Set_spec.
    intros x. rewrite !(proj2 (new_Set_spec _)). apply Hsame. }
  destruct (Forall2_Permutation_l _ _ _ _ Hp Hvs) as (vs' & Hvs' & H').
  exists (fold_left plus vs zero), (fold_left plus vs' zero).
  split; [now apply new_Collection_price|]. split; [now apply new_Collection_price|].
  assert (Hsize : size vs' = size vs).
  { symmetry. apply total_Permutation. now apply Permutation_map. }
  assert (Hvalue : value vs' = value vs).
  { symmetry. apply total_Permutation. now apply Permutation_map. }
  assert (Hint' : Forall isint vs') by now rewrite <- Hvs'.
  destruct (fold_plus_exact vs zero isint_zero Hint) as [H1 H2];
    [rewrite val_zero; lia|].
  destruct (fold_plus_exact vs' zero isint_zero Hint') as [H3 H4];
    [rewrite val_zero; lia|].
  rewrite val_zero in *. repeat split; auto; lia.
Qed.

End Exact.

End Price.

Lemma constructors_keep_ranked_witness :
  ranked id (snd (new_Product "Cable" 3%Z usage_heap)) = true /\
  ranked id (snd (new_Collection "Again" [purchase; 0; purchase] usage_heap)) = true /\
  exists v, forall n, length usage_heap < n ->
    price 0%Z Z.add n (snd (new_Collection "Again" [purchase; 0; purchase] usage_heap))
          (fst (new_Collection "Again" [purchase; 0; purchase] usage_heap)) = Some v.
Proof.
  refine (constructors_keep_ranked 0%Z Z.add usage_heap "Again" 3%Z
            [purchase; 0; purchase] eq_refl _).
  repeat constructor; vm_compute; lia.
Defined.

(** Scenario of the usage script: Electronics costs 1635, Textile 55, and the
    purchase of both 1690. *)
Lemma price_spec_witness :
  has_price 0%Z Z.add usage_heap electronics 1635%Z /\
  has_price 0%Z Z.add usage_heap purchase 1690%Z.
Proof.
  split.
  - refine (price_spec 0%Z Z.add usage_heap electronics
              (Collection "Electronics" [0; 1; 2; 3]) eq_refl
              [1500; 25; 100; 10]%Z _).
    repeat constructor; exists 1; reflexivity.
  - refine (price_spec 0%Z Z.add usage_heap purchase
              (Collection "Purchase" [electronics; textile]) eq_refl
              [1635; 55]%Z _).
    repeat constructor; exists 2; reflexivity.
Defined.

(** A mouse given twice, around a pad, is counted once: 30, not 55. Two
    mice of the same name and price are two references, and both count. *)
Lemma Collection_dedup_by_identity_witness :
  let h := [Product "Mouse" 25%Z; Product "Pad" 5%Z; Product "Mouse" 25%Z] in
  has_price 0%Z Z.add (snd (new_Collection "Desk" [0; 1; 0] h))
            (fst (new_Collection "Desk" [0; 1; 0] h)) 30%Z /\
  has_price 0%Z Z.add (snd (new_Collection "Mice" [0; 2] h))
            (fst (new_Collection "Mice" [0; 2] h)) 50%Z.
Proof.
  cbv zeta. split.
  - destruct (Collection_dedup_by_identity 0%Z Z.add
                [Product "Mouse" 25%Z; Product "Pad" 5%Z; Product "Mouse" 25%Z]
                "Desk" [0; 1; 0]) as (set & Hset & _ & _ & Hprice).
    vm_compute in Hset. injection Hset as <-.
    apply (Hprice [25; 5]%Z). repeat constructor; exists 1; reflexivity.
  - destruct (Collection_dedup_by_identity 0%Z Z.add
                [Product "Mouse" 25%Z; Product "Pad" 5%Z; Product "Mouse" 25%Z]
                "Mice" [0; 2]) as (set & Hset & _ & _ & Hprice).
    vm_compute in Hset. injection Hset as <-.
    apply (Hprice [25; 25]%Z). repeat constructor; exists 1; reflexivity.
Defined.

End SimpleSpec.

(* ===================================================================== *)
(** * Exact totals with the numbers of the host *)
(* ===================================================================== *)

Module SimpleFloatSpec.
Import PrimFloat.
Import Simple SimpleFloat.

Example shared_heap_built :
  shared_heap =
  [ Product "Pen" 3%float; Product "Ink" 1%float; Product "Pad" 2%float;
    Collection "Desk" [0; 1]; Collection "Bag" [1; 2]; Collection "Both" [3; 4] ]
  /\ both = 5.
Proof. split; reflexivity. Qed.

(** The rounded addition is exact on the integers from [-8] to [8] whose
    absolute values total at most [8]. *)
Lemma add_exact_small a b :
  is_small_integer a -> is_small_integer b ->
  (Z.abs (small_value a) + Z.abs (small_value b) <= 8)%Z ->
  is_small_integer (PrimFloat.add a b) /\
  small_value (PrimFloat.add a b) = (small_value a + small_value b)%Z.
Proof.
  unfold is_small_integer. cbn [List.map small_integers fst In].
  intros Ha Hb.
  repeat (destruct Ha as [<-|Ha]; [|]); try contradiction;
  repeat (destruct Hb as [<-|Hb]; [|]); try contradiction;
  vm_compute; intros Hle;
  first [ exfalso; apply Hle; reflexivity | split; [tauto|reflexivity] ].
Qed.


(** Pen, ink and pad in two orders, the pad given twice: 6 both times. *)
Lemma Collection_price_any_order_witness :
  exists v v',
    has_price 0%float PrimFloat.add (snd (new_Collection "a" [0; 1; 2] shared_heap))
              (fst (new_Collection "a" [0; 1; 2] shared_heap)) v /\
    has_price 0%float PrimFloat.add (snd (new_Collection "a" [2; 0; 1; 2] shared_heap))
              (fst (new_Collection "a" [2; 0; 1; 2] shared_heap)) v' /\
    is_small_integer v /\ is_small_integer v' /\
    small_value v = 6%Z /\ small_value v' = 6%Z.
Proof.
  refine (SimpleSpec.Collection_price_any_order 0%float PrimFloat.add
            small_value is_small_integer 8%Z
            ltac:(vm_compute; tauto) eq_refl add_exact_small
            shared_heap "a" [0; 1; 2] [2; 0; 1; 2] [3; 1; 2]%float _ _ _ _).
  - intros x. rewrite !elem_of_cons, elem_of_nil. tauto.
  - repeat constructor; exists 1; reflexivity.
  - repeat constructor; vm_compute; tauto.
  - vm_compute. discriminate.
Defined.

End SimpleFloatSpec.
